(** * handlers: a sequential source/handler pipeline (qn-zyc/handlers)

    Shallow embedding of the Go package [handlers] and of the properties its
    specification states about it.  Three files are covered:

    - [handlers.go]: the pipeline whose [Run] returns nothing and ends with a
      result-handler step (module [Void] below);
    - the second pipeline file, whose [Run] returns an [error] and which has
      the [ErrCheck] predicate (module [Failfast] below);
    - the file sources [FileSource] and [MultiFileSrc] (module [Files]).

    Modelling decisions, valid for the whole development:

    - Go's [interface{}] values are the inductive [value]; [error] values are
      [err] ([None] is Go's [nil] error).
    - [container/list] is modelled by [GoList]: a [*list.List] is either the
      nil pointer or a sequence of elements.  The methods used by the package
      ([PushBack], [Front], [Remove], the [Front]/[Next] iteration) dereference
      their receiver or their element argument, so a nil receiver or a nil
      element is a run-time panic; [fallible] records that.
    - Objects behind the [Source] and [Handler] interfaces live in a store and
      are referred to by address ([ref]); the queues hold addresses, so an
      object keeps its identity while its state changes.  A source is described
      by the answer it gives to its n-th [Next] call and the number of calls
      made so far; a handler by the answer it gives to an input after the
      inputs it has already seen, and the list of those inputs.  Interface
      methods are assumed to return (they neither panic nor loop) and not to
      call back into the pipeline.  An address with no object in the store
      stands for a nil interface value: a method call through it panics.
    - Execution is sequential: mutexes are not modelled.  A computation is a
      function from the state of the world to an [outcome]: a normal return, a
      panic, or exhaustion of the loop budget ([fuel]), each with the state of
      the world at that moment.  A computation that exhausts every budget
      does not terminate. *)

From Stdlib Require Import ZArith Lia Ascii.
From stdpp Require Import base option list strings gmap fin_maps.

Local Open Scope Z_scope.

(** ** Values, errors, the two interfaces *)

(** Go values that travel through the pipeline as [interface{}]. *)
#[warnings="-register-all"] Inductive value : Type :=
| VNil
| VStr (s : string)
| VMap (m : gmap string value).

(** Non-nil Go [error] values.  [io.EOF] is a package-level value compared by
    identity; every other error is identified by its message. *)
Inductive error : Type :=
| EOF
| Err (msg : string).

(** A Go [error]: [None] is [nil]. *)
Definition err : Type := option error.

Definition error_eqb (a b : error) : bool :=
  match a, b with
  | EOF, EOF => true
  | Err x, Err y => bool_decide (x = y)
  | _, _ => false
  end.

(** Addresses of heap objects. *)
Definition ref : Type := nat.

(** An object implementing [Source]: [script n] is what the n-th call of
    [Next] returns, [calls] counts the calls made so far. *)
Record Source : Type := mkSource {
  script : nat -> value * err;
  calls : nat
}.

(** [src.Next()] on the object itself. *)
Definition Source_Next (s : Source) : (value * err) * Source :=
  (script s (calls s), mkSource (script s) (S (calls s))).

(** ** Outcomes of calls that may panic *)

Inductive fallible (A : Type) : Type :=
| Returns (a : A)
| Panics.
Arguments Returns {A} a.
Arguments Panics {A}.

(** ** container/list *)

Module GoList.
Section GoList.
Context {A : Type}.

(** [*list.List]: [None] is the nil pointer. *)
Definition t : Type := option (list A).

(** [*list.Element]: position in the list and the [Value] field. *)
Record Element : Type := mkElement { pos : nat; Value : A }.

(** [list.New()]. *)
Definition New : t := Some [].

(** [l.PushBack(v)]: [lazyInit] reads [l.root], so a nil [l] panics. *)
Definition PushBack (l : t) (v : A) : fallible t :=
  match l with
  | None => Panics
  | Some xs => Returns (Some (xs ++ [v]))
  end.

(** [l.Front()]: reads [l.len], so a nil [l] panics; the result is the nil
    element ([None]) when the list is empty. *)
Definition Front (l : t) : fallible (option Element) :=
  match l with
  | None => Panics
  | Some [] => Returns None
  | Some (x :: _) => Returns (Some (mkElement 0 x))
  end.

(** [l.Remove(e)]: reads [e.list], so a nil [e] panics; otherwise the
    element is unlinked. *)
Definition Remove (l : t) (e : option Element) : fallible t :=
  match e with
  | None => Panics
  | Some el =>
      match l with
      | None => Returns None
      | Some xs => Returns (Some (delete (pos el) xs))
      end
  end.

(** The values met by [for e := l.Front(); e != nil; e = e.Next()]. *)
Definition elements (l : t) : fallible (list A) :=
  match l with
  | None => Panics
  | Some xs => Returns xs
  end.
End GoList.
Arguments t : clear implicits.
Arguments Element : clear implicits.
End GoList.

(** [safeList]: the embedded [*list.List] (the mutex is not modelled). *)
Record safeList (A : Type) : Type := mkSafeList { List : GoList.t A }.
Arguments mkSafeList {A} List.
Arguments List {A} s.

(** ** Outcomes of stateful computations *)

Inductive outcome (W A : Type) : Type :=
| Ok (a : A) (w : W)
| Panic (w : W)
| OutOfFuel (w : W).
Arguments Ok {W A} a w.
Arguments Panic {W A} w.
Arguments OutOfFuel {W A} w.

Definition M (W A : Type) : Type := W -> outcome W A.

Definition ret {W A} (a : A) : M W A := fun w => Ok a w.

Definition bind {W A B} (m : M W A) (k : A -> M W B) : M W B :=
  fun w =>
    match m w with
    | Ok a w' => k a w'
    | Panic w' => Panic w'
    | OutOfFuel w' => OutOfFuel w'
    end.

Definition panic {W A} : M W A := fun w => Panic w.

(** A pure call that may panic, run inside a computation. *)
Definition lift {W A} (r : fallible A) : M W A :=
  match r with
  | Returns a => ret a
  | Panics => panic
  end.

Declare Scope go_scope.
Delimit Scope go_scope with go.
Notation "x <- m ;; k" := (bind m (fun x => k))
  (at level 100, m at next level, right associativity) : go_scope.
Notation "m ;;; k" := (bind m (fun _ => k))
  (at level 100, right associativity) : go_scope.

(** The world in which an outcome ends (for [OutOfFuel], the world in which
    the loop budget ran out). *)
Definition final {W A} (o : outcome W A) : W :=
  match o with
  | Ok _ w => w
  | Panic w => w
  | OutOfFuel w => w
  end.

(** An outcome that is a normal return. *)
Definition is_Ok {W A} (o : outcome W A) : Prop :=
  match o with Ok _ _ => True | _ => False end.

(** An outcome that is a panic. *)
Definition is_Panic {W A} (o : outcome W A) : Prop :=
  match o with Panic _ => True | _ => False end.

(** An outcome that is the exhaustion of the loop budget. *)
Definition is_OutOfFuel {W A} (o : outcome W A) : Prop :=
  match o with OutOfFuel _ => True | _ => False end.

(** [preserves R m]: whatever way [m] ends, the world it ends in is related
    by [R] to the world it started in. *)
Definition preserves {W A} (R : W -> W -> Prop) (m : M W A) : Prop :=
  forall w, R w (final (m w)).

(** ** File sources *)

Module Files.

Definition newline : ascii := "010"%char.

(** [bufio.Reader.ReadString(delim)] on the bytes not yet read: the bytes up
    to and including the first [delim], or [None] when [delim] does not
    occur. *)
Fixpoint split_delim (delim : ascii) (s : string) : option (string * string) :=
  match s with
  | EmptyString => None
  | String c rest =>
      if Ascii.eqb c delim then Some (String c EmptyString, rest)
      else match split_delim delim rest with
           | Some (line, rest') => Some (String c line, rest')
           | None => None
           end
  end.

(** [FileSource]: [file_open] is [fs.file != nil]; [unread] is what the
    reader [fs.r] has still to deliver. *)
Record FileSource : Type := mkFileSource {
  file_open : bool;
  unread : string
}.

(** The error of a read on a closed [*os.File]. *)
Definition ErrClosed : error := Err "file already closed".

(** [fs.r.ReadString('\n')]: a full line with no error; at the end of the
    data the remaining bytes with [io.EOF]; on a closed file the read
    fails. *)
Definition ReadString (fs : FileSource) : (string * err) * FileSource :=
  match split_delim newline (unread fs) with
  | Some (line, rest) => ((line, None), mkFileSource (file_open fs) rest)
  | None =>
      if file_open fs
      then ((unread fs, Some EOF), mkFileSource (file_open fs) EmptyString)
      else ((EmptyString, Some ErrClosed), fs)
  end.

(** [fs.Close()]. *)
Definition Close (fs : FileSource) : FileSource :=
  if file_open fs then mkFileSource false (unread fs) else fs.

(** [FileSource.Next]. *)
Definition FileSource_Next (fs : FileSource) : (value * err) * FileSource :=
  let '((line, e), fs1) := ReadString fs in
  let fs2 := match e with Some _ => Close fs1 | None => fs1 end in
  ((VStr line, e), fs2).

(** [MultiFileSrc]. *)
Record MultiFileSrc : Type := mkMultiFileSrc {
  src : list FileSource;
  index : Z
}.

(** [MultiFileSrc.Next].  [mfs.src[mfs.index]] panics out of range. *)
Definition MultiFileSrc_Next (mfs : MultiFileSrc)
  : fallible ((value * err) * MultiFileSrc) :=
  if Z.geb (index mfs) (Z.of_nat (length (src mfs)))
  then Returns ((VNil, Some EOF), mfs)
  else
    if Z.ltb (index mfs) 0 then Panics
    else
      match src mfs !! Z.to_nat (index mfs) with
      | None => Panics
      | Some fs =>
          let '((data, e), fs') := FileSource_Next fs in
          let files := <[Z.to_nat (index mfs) := fs']> (src mfs) in
          match e with
          | None => Returns ((data, None), mkMultiFileSrc files (index mfs))
          | Some e0 =>
              let index' := index mfs + 1 in
              let e' :=
                if error_eqb e0 EOF && Z.ltb index' (Z.of_nat (length files))
                then None else Some e0 in
              Returns ((data, e'), mkMultiFileSrc files index')
          end
      end.



Definition nl : string := String newline EmptyString.

(** file1 = "x\n", file2 = "y\nz". *)
Definition file1 : FileSource := mkFileSource true ("x" +:+ nl).
Definition file2 : FileSource := mkFileSource true ("y" +:+ nl +:+ "z").
Definition two_files : MultiFileSrc := mkMultiFileSrc [file1; file2] 0.

End Files.

(** ** The world: the pipeline and the objects it refers to *)

(** [P] is the [Handlers] struct of a variant, [H] its handler objects. *)
Record World (P H : Type) : Type := mkWorld {
  pipeline : P;
  srcHeap : gmap ref Source;
  hdlHeap : gmap ref H
}.
Arguments mkWorld {P H} pipeline srcHeap hdlHeap.
Arguments pipeline {P H} w.
Arguments srcHeap {P H} w.
Arguments hdlHeap {P H} w.

(** Read and update of the pipeline struct. *)
Definition gets {P H A} (f : P -> A) : M (World P H) A :=
  fun w => Ok (f (pipeline w)) w.

Definition modify {P H} (f : P -> P) : M (World P H) unit :=
  fun w => Ok tt (mkWorld (f (pipeline w)) (srcHeap w) (hdlHeap w)).

(** [src.Next()] through the interface value [src]: the object is looked up,
    answers, and its new state is stored back. *)
Definition call_Next {P H} (src : ref) : M (World P H) (value * err) :=
  fun w =>
    match srcHeap w !! src with
    | None => Panic w
    | Some s =>
        let '(r, s') := Source_Next s in
        Ok r (mkWorld (pipeline w) (<[src := s']> (srcHeap w)) (hdlHeap w))
    end.

(** The sources or handlers a queue holds, front first ([[]] for a queue that
    was never allocated or whose list is nil). *)
Definition contents {A} (q : option (safeList A)) : list A :=
  match q with
  | Some (mkSafeList (Some xs)) => xs
  | _ => []
  end.

(** The relations preserved by the operations of the pipelines. *)
Definition same_pipeline {P H} (w w' : World P H) : Prop :=
  pipeline w' = pipeline w.

Definition same_sources {P H} (w w' : World P H) : Prop :=
  srcHeap w' = srcHeap w.

(** Every source object outside [touched] is in the state it was in. *)
Definition same_sources_but {P H} (touched : list ref) (w w' : World P H) : Prop :=
  forall r, r ∉ touched -> srcHeap w' !! r = srcHeap w !! r.


(** ** handlers.go: [Run] without a result, with a result handler *)

Module Void.

Definition StatusInit : Z := 0.
Definition StatusRunning : Z := 1.
Definition StatusStop : Z := 2.

(** An object implementing [Handler]: [respond seen in] is what [Handle(in)]
    returns after the inputs [seen], [report seen] is what [Result()] returns
    then. *)
Record Handler : Type := mkHandler {
  ID : string;
  respond : list value -> value -> value;
  report : list value -> value;
  seen : list value
}.

Definition Handler_Handle (h : Handler) (d : value) : value * Handler :=
  (respond h (seen h) d, mkHandler (ID h) (respond h) (report h) (seen h ++ [d])).

Definition Handler_Result (h : Handler) : value := report h (seen h).

Record Handlers : Type := mkHandlers {
  todoSrc : option (safeList ref);
  doneSrc : option (safeList ref);
  handlers : option (safeList ref);
  resultHandler : option ref;
  state : Z
}.

Definition set_todoSrc (q : option (safeList ref)) (h : Handlers) : Handlers :=
  mkHandlers q (doneSrc h) (handlers h) (resultHandler h) (state h).
Definition set_doneSrc (q : option (safeList ref)) (h : Handlers) : Handlers :=
  mkHandlers (todoSrc h) q (handlers h) (resultHandler h) (state h).
Definition set_handlers (q : option (safeList ref)) (h : Handlers) : Handlers :=
  mkHandlers (todoSrc h) (doneSrc h) q (resultHandler h) (state h).
Definition set_resultHandler (r : option ref) (h : Handlers) : Handlers :=
  mkHandlers (todoSrc h) (doneSrc h) (handlers h) r (state h).
Definition set_state (s : Z) (h : Handlers) : Handlers :=
  mkHandlers (todoSrc h) (doneSrc h) (handlers h) (resultHandler h) s.

(** The zero value [Handlers{}]. *)
Definition zero : Handlers := mkHandlers None None None None StatusInit.

Abbreviation W := (World Handlers Handler).

(** [new(safeList)]: the embedded [*list.List] is nil. *)
Definition new_safeList : safeList ref := mkSafeList None.

(** [handler.Handle(d)] through the interface value. *)
Definition call_Handle (hd : ref) (d : value) : M W value :=
  fun w =>
    match hdlHeap w !! hd with
    | None => Panic w
    | Some h =>
        let '(out, h') := Handler_Handle h d in
        Ok out (mkWorld (pipeline w) (srcHeap w) (<[hd := h']> (hdlHeap w)))
    end.

(** [results[handler.ID()] = handler.Result()] through the interface value. *)
Definition call_ID_Result (hd : ref) : M W (string * value) :=
  fun w =>
    match hdlHeap w !! hd with
    | None => Panic w
    | Some h => Ok (ID h, Handler_Result h) w
    end.

Definition AddSrc (src : ref) : M W unit :=
  (q <- gets todoSrc ;;
   (match q with
    | None => modify (set_todoSrc (Some new_safeList))
    | Some _ => ret tt
    end) ;;;
   q <- gets todoSrc ;;
   match q with
   | None => panic
   | Some sl =>
       l <- lift (GoList.PushBack (List sl) src) ;;
       modify (set_todoSrc (Some (mkSafeList l)))
   end)%go.

Definition popSrc : M W (option ref) :=
  (q <- gets todoSrc ;;
   match q with
   | None => ret None
   | Some sl =>
       ele <- lift (GoList.Front (List sl)) ;;
       l <- lift (GoList.Remove (List sl) ele) ;;
       modify (set_todoSrc (Some (mkSafeList l))) ;;;
       match ele with
       | None => panic
       | Some e => ret (Some (GoList.Value e))
       end
   end)%go.

Definition srcDone (src : ref) : M W unit :=
  (q <- gets doneSrc ;;
   (match q with
    | None => modify (set_doneSrc (Some new_safeList))
    | Some _ => ret tt
    end) ;;;
   q <- gets doneSrc ;;
   match q with
   | None => panic
   | Some sl =>
       l <- lift (GoList.PushBack (List sl) src) ;;
       modify (set_doneSrc (Some (mkSafeList l)))
   end)%go.

Definition AddHandler (handler : ref) : M W unit :=
  (q <- gets handlers ;;
   (match q with
    | None => modify (set_handlers (Some new_safeList))
    | Some _ => ret tt
    end) ;;;
   q <- gets handlers ;;
   match q with
   | None => panic
   | Some sl =>
       l <- lift (GoList.PushBack (List sl) handler) ;;
       modify (set_handlers (Some (mkSafeList l)))
   end)%go.

Definition SetResultHandler (handler : ref) : M W unit :=
  modify (set_resultHandler (Some handler)).

(** The inner loop of [handleSrc]:
    [for e := h.handlers.Front(); e != nil; e = e.Next() { d = e.Value.(Handler).Handle(d) }]
    over the elements [es] still to visit. *)
Fixpoint chain (es : list ref) (d : value) : M W value :=
  match es with
  | [] => ret d
  | e :: es' => (d' <- call_Handle e d ;; chain es' d')%go
  end.

(** The outer loop of [handleSrc]:
    [for d, err := src.Next(); err == nil; d, err = src.Next() { ... }]. *)
Fixpoint handleSrc_loop (fuel : nat) (sl : safeList ref) (src : ref) : M W unit :=
  match fuel with
  | O => fun w => OutOfFuel w
  | S fuel' =>
      (r <- call_Next src ;;
       match r with
       | (d, None) =>
           es <- lift (GoList.elements (List sl)) ;;
           _ <- chain es d ;;
           handleSrc_loop fuel' sl src
       | (_, Some _) => ret tt
       end)%go
  end.

Definition handleSrc (fuel : nat) (src : ref) : M W unit :=
  (q <- gets handlers ;;
   match q with
   | None => ret tt
   | Some sl => handleSrc_loop fuel sl src
   end)%go.

(** The result loop of [Run]: [results[handler.ID()] = handler.Result()]. *)
Fixpoint collect (es : list ref) (results : gmap string value) : M W (gmap string value) :=
  match es with
  | [] => ret results
  | e :: es' =>
      (kv <- call_ID_Result e ;;
       collect es' (<[kv.1 := kv.2]> results))%go
  end.

(** The drain loop of [Run]: [for { src := h.popSrc(); if src == nil { break }; h.handleSrc(src) }];
    [k] bounds the number of iterations. *)
Fixpoint drain (fuel k : nat) : M W unit :=
  match k with
  | O => fun w => OutOfFuel w
  | S k' =>
      (src <- popSrc ;;
       match src with
       | None => ret tt
       | Some s => handleSrc fuel s ;;; drain fuel k'
       end)%go
  end.

Definition Run (fuel : nat) : M W unit :=
  (st <- gets state ;;
   if Z.eqb st StatusRunning then ret tt
   else
     modify (set_state StatusRunning) ;;;
     drain fuel fuel ;;;
     rh <- gets resultHandler ;;
     q <- gets handlers ;;
     match rh, q with
     | Some r, Some sl =>
         es <- lift (GoList.elements (List sl)) ;;
         results <- collect es ∅ ;;
         _ <- call_Handle r (VMap results) ;;
         ret tt
     | _, _ => ret tt
     end)%go.

(** A world with the zero pipeline and the given objects. *)
Definition fresh (ss : gmap ref Source) (hs : gmap ref Handler) : W :=
  mkWorld zero ss hs.

(** The last step of [Run], once the drain loop has ended by its [break]. *)
Definition result_step : M W unit :=
  (rh <- gets resultHandler ;;
   q <- gets handlers ;;
   match rh, q with
   | Some r, Some sl =>
       es <- lift (GoList.elements (List sl)) ;;
       results <- collect es ∅ ;;
       _ <- call_Handle r (VMap results) ;;
       ret tt
   | _, _ => ret tt
   end)%go.

(** The world in which [Run] starts to drain. *)
Definition started (w : W) : W :=
  mkWorld (set_state StatusRunning (pipeline w)) (srcHeap w) (hdlHeap w).

(** The fields of the pipeline other than the pending queue. *)
Definition same_rest (w w' : W) : Prop :=
  doneSrc (pipeline w') = doneSrc (pipeline w) /\
  handlers (pipeline w') = handlers (pipeline w) /\
  resultHandler (pipeline w') = resultHandler (pipeline w) /\
  state (pipeline w') = state (pipeline w).

(** The chain as the specification words it: the left fold of the handlers'
    [Handle] over the item, in the order of the chain. *)
Definition chain_as_fold (es : list ref) (d : value) : M W value :=
  fold_left (fun acc e => (x <- acc ;; call_Handle e x)%go) es (ret d).

End Void.

(** ** The second pipeline file: [Run] returns an error, [ErrCheck] *)

Module Failfast.

Definition StatusInit : Z := 0.
Definition StatusRunning : Z := 1.
Definition StatusStop : Z := 2.

(** An object implementing [Handler] (a [HandlerFunc] is one of them):
    [respond seen in] is what [Handle(in)] returns after the inputs [seen]. *)
Record Handler : Type := mkHandler {
  respond : list value -> value -> value * err;
  seen : list value
}.

Definition Handler_Handle (h : Handler) (d : value) : (value * err) * Handler :=
  (respond h (seen h) d, mkHandler (respond h) (seen h ++ [d])).

Record Handlers : Type := mkHandlers {
  todoSrc : option (safeList ref);
  doneSrc : option (safeList ref);
  handlers : option (safeList ref);
  state : Z;
  ErrCheck : option (err -> bool)
}.

Definition set_todoSrc (q : option (safeList ref)) (h : Handlers) : Handlers :=
  mkHandlers q (doneSrc h) (handlers h) (state h) (ErrCheck h).
Definition set_doneSrc (q : option (safeList ref)) (h : Handlers) : Handlers :=
  mkHandlers (todoSrc h) q (handlers h) (state h) (ErrCheck h).
Definition set_handlers (q : option (safeList ref)) (h : Handlers) : Handlers :=
  mkHandlers (todoSrc h) (doneSrc h) q (state h) (ErrCheck h).
Definition set_state (s : Z) (h : Handlers) : Handlers :=
  mkHandlers (todoSrc h) (doneSrc h) (handlers h) s (ErrCheck h).
Definition set_ErrCheck (f : option (err -> bool)) (h : Handlers) : Handlers :=
  mkHandlers (todoSrc h) (doneSrc h) (handlers h) (state h) f.

(** The zero value [Handlers{}]. *)
Definition zero : Handlers := mkHandlers None None None StatusInit None.

Abbreviation W := (World Handlers Handler).

(** [newSafeList()]: the embedded list is [list.New()]. *)
Definition newSafeList : safeList ref := mkSafeList GoList.New.

(** [handler.Handle(d)] through the interface value. *)
Definition call_Handle (hd : ref) (d : value) : M W (value * err) :=
  fun w =>
    match hdlHeap w !! hd with
    | None => Panic w
    | Some h =>
        let '(out, h') := Handler_Handle h d in
        Ok out (mkWorld (pipeline w) (srcHeap w) (<[hd := h']> (hdlHeap w)))
    end.

Definition AddSrc (src : ref) : M W unit :=
  (q <- gets todoSrc ;;
   (match q with
    | None => modify (set_todoSrc (Some newSafeList))
    | Some _ => ret tt
    end) ;;;
   q <- gets todoSrc ;;
   match q with
   | None => panic
   | Some sl =>
       l <- lift (GoList.PushBack (List sl) src) ;;
       modify (set_todoSrc (Some (mkSafeList l)))
   end)%go.

Definition popSrc : M W (option ref) :=
  (q <- gets todoSrc ;;
   match q with
   | None => ret None
   | Some sl =>
       ele <- lift (GoList.Front (List sl)) ;;
       l <- lift (GoList.Remove (List sl) ele) ;;
       modify (set_todoSrc (Some (mkSafeList l))) ;;;
       match ele with
       | None => panic
       | Some e => ret (Some (GoList.Value e))
       end
   end)%go.

Definition srcDone (src : ref) : M W unit :=
  (q <- gets doneSrc ;;
   (match q with
    | None => modify (set_doneSrc (Some newSafeList))
    | Some _ => ret tt
    end) ;;;
   q <- gets doneSrc ;;
   match q with
   | None => panic
   | Some sl =>
       l <- lift (GoList.PushBack (List sl) src) ;;
       modify (set_doneSrc (Some (mkSafeList l)))
   end)%go.

Definition AddHandler (handler : ref) : M W unit :=
  (q <- gets handlers ;;
   (match q with
    | None => modify (set_handlers (Some newSafeList))
    | Some _ => ret tt
    end) ;;;
   q <- gets handlers ;;
   match q with
   | None => panic
   | Some sl =>
       l <- lift (GoList.PushBack (List sl) handler) ;;
       modify (set_handlers (Some (mkSafeList l)))
   end)%go.

(** [AddHandlerFunc(f)]: [f] is a handler object like any other. *)
Definition AddHandlerFunc (f : ref) : M W unit := AddHandler f.

Definition defaultErrFunc (e : err) : bool :=
  match e with
  | None => true
  | Some e0 => error_eqb e0 EOF
  end.

(** The inner loop of [handleSrc]:
    [for e := h.handlers.Front(); e != nil; e = e.Next() { d, err = e.Value.(Handler).Handle(d) }]
    over the elements [es] still to visit; both [d] and [err] are assigned by
    every handler. *)
Fixpoint chain (es : list ref) (r : value * err) : M W (value * err) :=
  match es with
  | [] => ret r
  | e :: es' => (r' <- call_Handle e r.1 ;; chain es' r')%go
  end.

(** The outer loop of [handleSrc]:
    [for d, err := src.Next(); ; d, err = src.Next() { ...; if err != nil { return err } }]. *)
Fixpoint handleSrc_loop (fuel : nat) (sl : safeList ref) (src : ref) : M W err :=
  match fuel with
  | O => fun w => OutOfFuel w
  | S fuel' =>
      (r <- call_Next src ;;
       es <- lift (GoList.elements (List sl)) ;;
       r' <- chain es r ;;
       match r'.2 with
       | Some e => ret (Some e)
       | None => handleSrc_loop fuel' sl src
       end)%go
  end.

Definition handleSrc (fuel : nat) (src : ref) : M W err :=
  (q <- gets handlers ;;
   match q with
   | None => ret None
   | Some sl => handleSrc_loop fuel sl src
   end)%go.

(** [h.ErrCheck(err)]: calling a nil function value panics. *)
Definition call_ErrCheck (e : err) : M W bool :=
  (f <- gets ErrCheck ;;
   match f with
   | None => panic
   | Some check => ret (check e)
   end)%go.

(** The drain loop of [Run]; [k] bounds the number of iterations.  The result
    is the error [Run] returns. *)
Fixpoint drain (fuel k : nat) : M W err :=
  match k with
  | O => fun w => OutOfFuel w
  | S k' =>
      (src <- popSrc ;;
       match src with
       | None => ret None
       | Some s =>
           e <- handleSrc fuel s ;;
           srcDone s ;;;
           match e with
           | None => drain fuel k'
           | Some _ =>
               goon <- call_ErrCheck e ;;
               if goon then drain fuel k' else ret e
           end
       end)%go
  end.

Definition ErrAlreadyRunning : error := Err "handlers already running".

Definition Run (fuel : nat) : M W err :=
  (st <- gets state ;;
   if Z.eqb st StatusRunning then ret (Some ErrAlreadyRunning)
   else
     modify (set_state StatusRunning) ;;;
     f <- gets ErrCheck ;;
     (match f with
      | None => modify (set_ErrCheck (Some defaultErrFunc))
      | Some _ => ret tt
      end) ;;;
     drain fuel fuel)%go.

(** A world with the zero pipeline and the given objects. *)
Definition fresh (ss : gmap ref Source) (hs : gmap ref Handler) : W :=
  mkWorld zero ss hs.

(** The world in which [Run] starts to drain. *)
Definition started (w : W) : W :=
  mkWorld
    (match ErrCheck (pipeline w) with
     | None => set_ErrCheck (Some defaultErrFunc) (set_state StatusRunning (pipeline w))
     | Some _ => set_state StatusRunning (pipeline w)
     end)
    (srcHeap w) (hdlHeap w).

(** The fields of the pipeline that the drain loop does not write. *)
Definition same_rest (w w' : W) : Prop :=
  handlers (pipeline w') = handlers (pipeline w) /\
  state (pipeline w') = state (pipeline w) /\
  ErrCheck (pipeline w') = ErrCheck (pipeline w).

(** [in_order w o]: in the world where [o] ends, the sources that were pending
    in [w] are split, in their order, into those moved to the done queue
    ([fin]), at most one that was popped and not yet moved ([mid]), and those
    still pending; the sources still pending have not been touched. *)
Definition in_order (w : W) (o : outcome W err) : Prop :=
  exists fin mid,
    contents (todoSrc (pipeline w)) =
      fin ++ mid ++ contents (todoSrc (pipeline (final o))) /\
    contents (doneSrc (pipeline (final o))) =
      contents (doneSrc (pipeline w)) ++ fin /\
    (length mid <= 1)%nat /\
    (is_Ok o -> mid = []) /\
    same_sources_but (fin ++ mid) w (final o) /\
    same_rest w (final o).


(** The chain as the specification words it: the left fold of the handlers'
    [Handle] over the item, in the order of the chain. *)
Definition chain_as_fold (es : list ref) (d : value) : M W value :=
  fold_left (fun acc e => (x <- acc ;; y <- call_Handle e x ;; ret y.1)%go) es (ret d).

End Failfast.

(** ** Objects and pipelines used in the examples *)

Module Scenario.

(** A source that yields two items and then reports the end of the stream. *)
Definition two_items : Source :=
  mkSource (fun n => match n with
                     | O => (VStr "a", None)
                     | S O => (VStr "b", None)
                     | _ => (VNil, Some EOF)
                     end) 0.

(** A source whose reads fail with a hard error. *)
Definition broken : Source :=
  mkSource (fun _ => (VNil, Some (Err "read failed"))) 0.

(** A handler of the error-returning variant that returns its input and a nil
    error. *)
Definition pass : Failfast.Handler :=
  Failfast.mkHandler (fun _ d => (d, None)) [].

(** A handler of the error-returning variant that fails on every input. *)
Definition failing : Failfast.Handler :=
  Failfast.mkHandler (fun _ d => (d, Some (Err "handler failed"))) [].

(** Handlers of the void variant with the IDs "a" and "b", and a result
    handler. *)
Definition handler_a : Void.Handler :=
  Void.mkHandler "a" (fun _ d => d) (fun _ => VStr "resultA") [].
Definition handler_b : Void.Handler :=
  Void.mkHandler "b" (fun _ d => d) (fun _ => VStr "resultB") [].
Definition sink : Void.Handler :=
  Void.mkHandler "sink" (fun _ _ => VNil) (fun _ => VNil) [].

(** A pipeline value of handlers.go with allocated queues, written as a
    struct literal (its own [AddSrc] and [AddHandler] cannot build it). *)
Definition void_literal (todo : list ref) (chain : option (list ref))
    (rh : option ref) : Void.Handlers :=
  Void.mkHandlers (Some (mkSafeList (Some todo))) None
    (match chain with
     | Some hs => Some (mkSafeList (Some hs))
     | None => None
     end)
    rh Void.StatusInit.



End Scenario.

(** ** Reading files to their end, closing them *)

Module FilesExt.
Import Files.







(** [err.Error()]. *)
Definition Error_msg (e : error) : string :=
  match e with
  | EOF => "EOF"
  | Err msg => msg
  end.

(** [FileSource.Close] with its result: [os_close] is what [fs.file.Close()]
    returns when the file is still open. *)
Definition FileSource_Close (os_close : err) (fs : FileSource) : err * FileSource :=
  if file_open fs then (os_close, Close fs) else (None, fs).

(** The loop of [MultiFileSrc.Close] over the files from position [i] on:
    [os_close j] is what closing the file at position [j] returns, [errBuf]
    collects the messages.  (The nil entries that the loop skips occur only
    while [NewMultiFileSrc] fails; the sources modelled here have none.) *)
Fixpoint close_loop (os_close : nat -> err) (i : nat) (files : list FileSource)
    (errBuf : string) : string * list FileSource :=
  match files with
  | [] => (errBuf, [])
  | fs :: rest =>
      let '(e, fs') := FileSource_Close (os_close i) fs in
      let errBuf' :=
        match e with
        | Some e0 => errBuf +:+ Error_msg e0
        | None => errBuf
        end in
      let '(b, rest') := close_loop os_close (S i) rest errBuf' in
      (b, fs' :: rest')
  end.

(** [MultiFileSrc.Close]. *)
Definition MultiFileSrc_Close (os_close : nat -> err) (mfs : MultiFileSrc)
  : err * MultiFileSrc :=
  let '(b, files) := close_loop os_close 0 (src mfs) EmptyString in
  (if Nat.ltb 0 (String.length b) then Some (Err b) else None,
   mkMultiFileSrc files (index mfs)).

(** The messages of the closes that fail, in the order of the files. *)
Fixpoint close_messages (os_close : nat -> err) (i : nat) (files : list FileSource)
  : string :=
  match files with
  | [] => EmptyString
  | fs :: rest =>
      (if file_open fs
       then match os_close i with
            | Some e => Error_msg e
            | None => EmptyString
            end
       else EmptyString) +:+ close_messages os_close (S i) rest
  end.

End FilesExt.

(** ** Sequences of calls of the exported functions *)

Module Api.

(** A registration call of the error-returning variant. *)
Inductive registration : Type :=
| RegSrc (r : ref)
| RegHandler (r : ref)
| RegHandlerFunc (r : ref).

Definition register (c : registration) : M Failfast.W unit :=
  match c with
  | RegSrc r => Failfast.AddSrc r
  | RegHandler r => Failfast.AddHandler r
  | RegHandlerFunc r => Failfast.AddHandlerFunc r
  end.

(** The calls [cs], one after the other. *)
Fixpoint registrations (cs : list registration) : M Failfast.W unit :=
  match cs with
  | [] => ret tt
  | c :: cs' => (register c ;;; registrations cs')%go
  end.

(** The sources, and the handlers, that [cs] registers, in the order of the
    calls. *)
Fixpoint registered_sources (cs : list registration) : list ref :=
  match cs with
  | [] => []
  | RegSrc r :: cs' => r :: registered_sources cs'
  | _ :: cs' => registered_sources cs'
  end.

Fixpoint registered_handlers (cs : list registration) : list ref :=
  match cs with
  | [] => []
  | RegSrc _ :: cs' => registered_handlers cs'
  | RegHandler r :: cs' => r :: registered_handlers cs'
  | RegHandlerFunc r :: cs' => r :: registered_handlers cs'
  end.

(** A call of an exported function of handlers.go. *)
Inductive call : Type :=
| CallAddSrc (r : ref)
| CallAddHandler (r : ref)
| CallSetResultHandler (r : ref)
| CallRun (fuel : nat).

Definition perform (c : call) : M Void.W unit :=
  match c with
  | CallAddSrc r => Void.AddSrc r
  | CallAddHandler r => Void.AddHandler r
  | CallSetResultHandler r => Void.SetResultHandler r
  | CallRun fuel => Void.Run fuel
  end.

(** The calls [cs], one after the other, each started in the world the one
    before ended in (a panic is recovered by the caller). *)
Fixpoint perform_all (cs : list call) (w : Void.W) : Void.W :=
  match cs with
  | [] => w
  | c :: cs' => perform_all cs' (final (perform c w))
  end.

(** The items a source yields in its next [k] calls. *)
Definition next_items (s : Source) (k : nat) : list value :=
  map (fun i => (script s (calls s + i)).1) (seq 0 k).

(** The error of a source's next call but [k] is the first one. *)
Definition first_error_at (s : Source) (k : nat) : Prop :=
  (forall i, (i < k)%nat -> (script s (calls s + i)).2 = None) /\
  (script s (calls s + k)).2 <> None.

(** A queue of handlers.go that holds no list: the field is nil, or points
    to the [safeList] made by [new(safeList)], whose list is nil. *)
Definition without_list (q : option (safeList ref)) : Prop :=
  q = None \/ q = Some (mkSafeList None).

(** A pipeline of handlers.go none of whose queues holds a list. *)
Definition inert (w : Void.W) : Prop :=
  without_list (Void.todoSrc (pipeline w)) /\
  without_list (Void.handlers (pipeline w)) /\
  Void.doneSrc (pipeline w) = None.

End Api.

(** ** More objects and pipelines used in the examples *)

Module Samples.

(** A source like a file that ends without newline: a line, then the rest
    together with the end of the stream, then the error of a closed file. *)
Definition partial_last : Source :=
  mkSource (fun n => match n with
                     | O => (VStr "x", None)
                     | S O => (VStr "z", Some EOF)
                     | _ => (VStr "", Some (Err "file already closed"))
                     end) 0.

(** A pipeline of the error-returning variant as two [AddSrc] and two
    [AddHandler] calls leave it: sources 0 and 1, chain of the handlers 2
    (returns its input) and 3 (fails on every input). *)
Definition failfast_world : Failfast.W :=
  mkWorld
    (Failfast.mkHandlers (Some (mkSafeList (Some [0%nat; 1%nat]))) None
       (Some (mkSafeList (Some [2%nat; 3%nat]))) Failfast.StatusInit None)
    {[ 0%nat := Scenario.two_items; 1%nat := Scenario.two_items ]}
    {[ 2%nat := Scenario.pass; 3%nat := Scenario.failing ]}.

(** A pipeline value of handlers.go with the chain of the handlers "a" and
    "b", the result handler 3 and the source 0. *)
Definition void_world (todo : option (list ref)) : Void.W :=
  mkWorld
    (Void.mkHandlers
       (match todo with
        | Some xs => Some (mkSafeList (Some xs))
        | None => None
        end)
       None (Some (mkSafeList (Some [1%nat; 2%nat]))) (Some 3%nat) Void.StatusInit)
    {[ 0%nat := partial_last ]}
    {[ 1%nat := Scenario.handler_a; 2%nat := Scenario.handler_b;
       3%nat := Scenario.sink ]}.

End Samples.

(** * Properties *)

(** ** Generic facts about computations *)

Lemma bind_Ok {W A B} (m : M W A) (k : A -> M W B) w a w1 :
  m w = Ok a w1 -> bind m k w = k a w1.
Proof. intros E. unfold bind. now rewrite E. Qed.

Lemma bind_Panic {W A B} (m : M W A) (k : A -> M W B) w w1 :
  m w = Panic w1 -> bind m k w = Panic w1.
Proof. intros E. unfold bind. now rewrite E. Qed.

Lemma bind_assoc {W A B C} (m : M W A) (k : A -> M W B) (k' : B -> M W C) w :
  bind (bind m k) k' w = bind m (fun a => bind (k a) k') w.
Proof. unfold bind. destruct (m w); reflexivity. Qed.

Local Open Scope go_scope.


Lemma bind_ext {W A B} (m : M W A) (k k' : A -> M W B) w :
  (forall a w', k a w' = k' a w') -> bind m k w = bind m k' w.
Proof. intros E. unfold bind. destruct (m w); auto. Qed.


Lemma Failfast_chain_app pre : forall post r w,
  Failfast.chain (pre ++ post) r w =
    (x <- Failfast.chain pre r ;; Failfast.chain post x) w.
Proof.
  induction pre as [|e pre IH]; intros post r w; simpl.
  - reflexivity.
  - rewrite bind_assoc. apply bind_ext. intros a w'. apply IH.
Qed.

Section Preserves.
Context {W : Type} (R : W -> W -> Prop).
Hypothesis R_refl : forall w, R w w.
Hypothesis R_trans : forall w1 w2 w3, R w1 w2 -> R w2 w3 -> R w1 w3.

Lemma preserves_ret {A} (a : A) : preserves R (ret a).
Proof. intros w. apply R_refl. Qed.

Lemma preserves_panic {A} : preserves R (@panic W A).
Proof. intros w. apply R_refl. Qed.

Lemma preserves_lift {A} (r : fallible A) : preserves R (lift r).
Proof. destruct r; intros w; apply R_refl. Qed.

Lemma preserves_stop {A} : preserves R (fun w => @OutOfFuel W A w).
Proof. intros w. apply R_refl. Qed.

Lemma preserves_bind {A B} (m : M W A) (k : A -> M W B) :
  preserves R m -> (forall a, preserves R (k a)) -> preserves R (bind m k).
Proof.
  intros Hm Hk w. unfold bind. specialize (Hm w).
  destruct (m w) as [a w1|w1|w1]; simpl in Hm; try exact Hm.
  eapply R_trans; [exact Hm|apply Hk].
Qed.
End Preserves.

Lemma same_pipeline_refl {P H} (w : World P H) : same_pipeline w w.
Proof. reflexivity. Qed.
Lemma same_pipeline_trans {P H} (w1 w2 w3 : World P H) :
  same_pipeline w1 w2 -> same_pipeline w2 w3 -> same_pipeline w1 w3.
Proof. unfold same_pipeline. congruence. Qed.

Lemma same_sources_refl {P H} (w : World P H) : same_sources w w.
Proof. reflexivity. Qed.
Lemma same_sources_trans {P H} (w1 w2 w3 : World P H) :
  same_sources w1 w2 -> same_sources w2 w3 -> same_sources w1 w3.
Proof. unfold same_sources. congruence. Qed.

Lemma same_sources_but_refl {P H} t (w : World P H) : same_sources_but t w w.
Proof. intros r _. reflexivity. Qed.
Lemma same_sources_but_trans {P H} t (w1 w2 w3 : World P H) :
  same_sources_but t w1 w2 -> same_sources_but t w2 w3 -> same_sources_but t w1 w3.
Proof. intros H12 H23 r Hr. rewrite H23, H12; auto. Qed.

Lemma same_sources_weaken {P H} t (w w' : World P H) :
  same_sources w w' -> same_sources_but t w w'.
Proof. intros E r _. now rewrite E. Qed.

(** [gets], [modify] and [call_Next]. *)
Lemma gets_preserves {P H A} (R : World P H -> World P H -> Prop) (f : P -> A) :
  (forall w, R w w) -> preserves R (gets f).
Proof. intros Hr w. apply Hr. Qed.

Lemma call_Next_pipeline {P H} src : preserves (@same_pipeline P H) (call_Next src).
Proof.
  intros w. unfold call_Next. destruct (srcHeap w !! src); reflexivity.
Qed.

Lemma call_Next_sources {P H} src :
  preserves (@same_sources_but P H [src]) (call_Next src).
Proof.
  intros w r Hr. unfold call_Next. destruct (srcHeap w !! src) eqn:E; simpl; auto.
  apply lookup_insert_ne. intros ->. apply Hr. now left.
Qed.

(** Proof steps shared by the frame lemmas: split a computation along its
    binds and close the leaves with the reflexivity of the relation. *)
Ltac frame_steps Rrefl Rtrans :=
  repeat first
    [ apply (preserves_bind _ Rtrans); [|intros]
    | apply (preserves_ret _ Rrefl)
    | apply (preserves_panic _ Rrefl)
    | apply (preserves_lift _ Rrefl)
    | apply (preserves_stop _ Rrefl)
    | apply gets_preserves; exact Rrefl
    | match goal with |- preserves _ (match ?x with _ => _ end) => destruct x end
    | match goal with |- preserves _ (if ?x then _ else _) => destruct x end ].

(** ** The void variant (handlers.go) *)

Module VoidFacts.
Import Void.

Lemma void_call_Handle_pipeline hd d : preserves same_pipeline (call_Handle hd d).
Proof. intros w. unfold call_Handle. destruct (hdlHeap w !! hd); reflexivity. Qed.

Lemma void_call_Handle_sources hd d : preserves same_sources (call_Handle hd d).
Proof. intros w. unfold call_Handle. destruct (hdlHeap w !! hd); reflexivity. Qed.

Lemma void_call_ID_Result_pipeline hd : preserves same_pipeline (call_ID_Result hd).
Proof. intros w. unfold call_ID_Result. destruct (hdlHeap w !! hd); reflexivity. Qed.


Lemma void_chain_pipeline es : forall d, preserves same_pipeline (chain es d).
Proof.
  induction es as [|e es IH]; intros d; simpl.
  - apply (preserves_ret _ same_pipeline_refl).
  - apply (preserves_bind _ same_pipeline_trans); [apply void_call_Handle_pipeline|auto].
Qed.

Lemma void_chain_sources es : forall d, preserves same_sources (chain es d).
Proof.
  induction es as [|e es IH]; intros d; simpl.
  - apply (preserves_ret _ same_sources_refl).
  - apply (preserves_bind _ same_sources_trans); [apply void_call_Handle_sources|auto].
Qed.

Lemma void_collect_pipeline es : forall m, preserves same_pipeline (collect es m).
Proof.
  induction es as [|e es IH]; intros m; simpl.
  - apply (preserves_ret _ same_pipeline_refl).
  - apply (preserves_bind _ same_pipeline_trans); [apply void_call_ID_Result_pipeline|auto].
Qed.


Lemma void_handleSrc_loop_pipeline fuel sl src :
  preserves same_pipeline (handleSrc_loop fuel sl src).
Proof.
  induction fuel as [|fuel IH]; simpl.
  - apply (preserves_stop _ same_pipeline_refl).
  - apply (preserves_bind _ same_pipeline_trans); [apply call_Next_pipeline|].
    intros [d [e|]]; frame_steps (@same_pipeline_refl Handlers Handler)
                                 (@same_pipeline_trans Handlers Handler);
      auto using void_chain_pipeline.
Qed.

Lemma void_handleSrc_loop_sources fuel sl src :
  preserves (same_sources_but [src]) (handleSrc_loop fuel sl src).
Proof.
  induction fuel as [|fuel IH]; simpl.
  - apply (preserves_stop _ (same_sources_but_refl _)).
  - apply (preserves_bind _ (same_sources_but_trans _)); [apply call_Next_sources|].
    intros [d [e|]]; frame_steps (@same_sources_but_refl Handlers Handler [src])
                                 (@same_sources_but_trans Handlers Handler [src]);
      auto.
    intros w. apply same_sources_weaken, void_chain_sources.
Qed.

Lemma void_handleSrc_pipeline fuel src : preserves same_pipeline (handleSrc fuel src).
Proof.
  unfold handleSrc.
  frame_steps (@same_pipeline_refl Handlers Handler)
              (@same_pipeline_trans Handlers Handler).
  apply void_handleSrc_loop_pipeline.
Qed.

Lemma void_handleSrc_sources fuel src :
  preserves (same_sources_but [src]) (handleSrc fuel src).
Proof.
  unfold handleSrc.
  frame_steps (@same_sources_but_refl Handlers Handler [src])
              (@same_sources_but_trans Handlers Handler [src]).
  apply void_handleSrc_loop_sources.
Qed.

(** What [popSrc] does, by the shape of the pending queue. *)
Lemma void_popSrc_nil w : todoSrc (pipeline w) = None -> popSrc w = Ok None w.
Proof. intros E. unfold popSrc, bind, gets. now rewrite E. Qed.

Lemma void_popSrc_nil_list w :
  todoSrc (pipeline w) = Some (mkSafeList None) -> popSrc w = Panic w.
Proof. intros E. unfold popSrc, bind, gets. now rewrite E. Qed.

Lemma void_popSrc_empty w :
  todoSrc (pipeline w) = Some (mkSafeList (Some [])) -> popSrc w = Panic w.
Proof. intros E. unfold popSrc, bind, gets. now rewrite E. Qed.

Lemma void_popSrc_cons w x xs :
  todoSrc (pipeline w) = Some (mkSafeList (Some (x :: xs))) ->
  popSrc w = Ok (Some x)
    (mkWorld (set_todoSrc (Some (mkSafeList (Some xs))) (pipeline w))
       (srcHeap w) (hdlHeap w)).
Proof. intros E. unfold popSrc, bind, gets. now rewrite E. Qed.

(** One iteration of the drain loop. *)
Lemma void_drain_S fuel k w :
  drain fuel (S k) w =
    match popSrc w with
    | Ok (Some s) w1 =>
        match handleSrc fuel s w1 with
        | Ok _ w2 => drain fuel k w2
        | Panic w2 => Panic w2
        | OutOfFuel w2 => OutOfFuel w2
        end
    | Ok None w1 => Ok tt w1
    | Panic w1 => Panic w1
    | OutOfFuel w1 => OutOfFuel w1
    end.
Proof.
  simpl. unfold bind. destruct (popSrc w) as [[s|] w1|w1|w1]; try reflexivity.
Qed.

(** The drain loop pops a prefix of the pending queue, in order; it leaves
    every source it has not popped as it was, and it touches no field of the
    pipeline but the pending queue. *)
Lemma void_drain_pops fuel k : forall w,
  exists popped,
    contents (todoSrc (pipeline w)) =
      popped ++ contents (todoSrc (pipeline (final (drain fuel k w)))) /\
    same_sources_but popped w (final (drain fuel k w)) /\
    same_rest w (final (drain fuel k w)).
Proof.
  induction k as [|k IH]; intros w.
  - exists []. now repeat split.
  - rewrite void_drain_S.
    destruct (todoSrc (pipeline w)) as [[[[|x xs]|]]|] eqn:E.
    + rewrite (void_popSrc_empty _ E). simpl. rewrite E. exists []. now repeat split.
    + rewrite (void_popSrc_cons _ _ _ E).
      set (w1 := mkWorld _ _ _).
      pose proof (void_handleSrc_pipeline fuel x w1) as Hp.
      pose proof (void_handleSrc_sources fuel x w1) as Hs.
      destruct (handleSrc fuel x w1) as [[] w2|w2|w2]; simpl in Hp, Hs.
      * destruct (IH w2) as (popped & Hq & Hsrc & Hd & Hh & Hr & Hst).
        exists (x :: popped). unfold same_pipeline in Hp.
        rewrite Hp in Hq, Hd, Hh, Hr, Hst. simpl in *.
        repeat split; try congruence.
        intros r Hr'. rewrite Hsrc by (intros ?; apply Hr'; now right).
        rewrite Hs; [reflexivity|]. intros Hin. apply Hr'.
        apply list_elem_of_singleton in Hin. subst. now left.
      * exists [x]. unfold same_pipeline in Hp.
        repeat split; simpl; rewrite ?Hp; simpl; rewrite ?E; auto.
      * exists [x]. unfold same_pipeline in Hp.
        repeat split; simpl; rewrite ?Hp; simpl; rewrite ?E; auto.
    + rewrite (void_popSrc_nil_list _ E). simpl. rewrite E. exists []. now repeat split.
    + rewrite (void_popSrc_nil _ E). simpl. rewrite E. exists []. now repeat split.
Qed.

(** With no handler chain the drain loop pops the whole pending queue without
    touching any object, then panics in the pop of the empty queue. *)
Lemma void_drain_no_chain fuel : forall xs k w,
  handlers (pipeline w) = None ->
  todoSrc (pipeline w) = Some (mkSafeList (Some xs)) ->
  (length xs < k)%nat ->
  drain fuel k w =
    Panic (mkWorld (set_todoSrc (Some (mkSafeList (Some []))) (pipeline w))
             (srcHeap w) (hdlHeap w)).
Proof.
  induction xs as [|x xs IH]; intros k w Hh E Hk.
  - destruct k as [|k]; [simpl in Hk; lia|].
    rewrite void_drain_S, (void_popSrc_empty _ E).
    f_equal. destruct w as [p ss hs]; simpl in *. f_equal.
    destruct p; simpl in *. unfold set_todoSrc; simpl. congruence.
  - destruct k as [|k]; [simpl in Hk; lia|].
    rewrite void_drain_S, (void_popSrc_cons _ _ _ E).
    unfold handleSrc at 1, bind, gets. simpl. rewrite Hh. unfold ret.
    rewrite (IH k); simpl; auto. simpl in Hk. lia.
Qed.

Lemma void_Run_running fuel w :
  state (pipeline w) = StatusRunning -> Run fuel w = Ok tt w.
Proof. intros E. unfold Run, bind, gets. rewrite E. reflexivity. Qed.

Lemma void_Run_not_running fuel w :
  state (pipeline w) <> StatusRunning ->
  Run fuel w = (drain fuel fuel ;;; result_step)%go (started w).
Proof.
  intros E. unfold Run, bind at 1, gets at 1.
  destruct (Z.eqb_spec (state (pipeline w)) StatusRunning); [contradiction|].
  reflexivity.
Qed.

Lemma void_result_step_pipeline : preserves same_pipeline result_step.
Proof.
  unfold result_step.
  frame_steps (@same_pipeline_refl Handlers Handler)
              (@same_pipeline_trans Handlers Handler);
    auto using void_collect_pipeline, void_call_Handle_pipeline.
Qed.



(** [Run] always ends with the state [StatusRunning]. *)
Lemma void_Run_state fuel w :
  state (pipeline (final (Run fuel w))) = StatusRunning.
Proof.
  destruct (Z.eq_dec (state (pipeline w)) StatusRunning) as [E|E].
  - now rewrite (void_Run_running _ _ E).
  - rewrite (void_Run_not_running _ _ E). unfold bind.
    destruct (void_drain_pops fuel fuel (started w)) as (popped & _ & _ & _ & _ & _ & Hs).
    destruct (drain fuel fuel (started w)) as [[] w2|w2|w2]; simpl in Hs; auto.
    pose proof (void_result_step_pipeline w2) as Hp. unfold same_pipeline in Hp.
    now rewrite Hp.
Qed.


(** Once the pending queue is allocated the drain loop cannot end by its
    [break]: [popSrc] returns nil only for a queue that was never
    allocated. *)
Lemma void_drain_not_Ok fuel k : forall w,
  todoSrc (pipeline w) <> None -> ~ is_Ok (drain fuel k w).
Proof.
  induction k as [|k IH]; intros w Hq; [exact (fun H => H)|].
  rewrite void_drain_S.
  destruct (todoSrc (pipeline w)) as [[[[|x xs]|]]|] eqn:E.
  - rewrite (void_popSrc_empty _ E). exact (fun H => H).
  - rewrite (void_popSrc_cons _ _ _ E). set (w1 := mkWorld _ _ _).
    pose proof (void_handleSrc_pipeline fuel x w1) as Hp. unfold same_pipeline in Hp.
    destruct (handleSrc fuel x w1) as [[] w2|w2|w2]; simpl in Hp;
      try exact (fun H => H).
    apply IH. rewrite Hp. discriminate.
  - rewrite (void_popSrc_nil_list _ E). exact (fun H => H).
  - contradiction.
Qed.

Lemma void_Run_not_Ok fuel w :
  todoSrc (pipeline w) <> None ->
  state (pipeline w) <> StatusRunning ->
  ~ is_Ok (Run fuel w).
Proof.
  intros Hq Hst. rewrite (void_Run_not_running _ _ Hst). unfold bind.
  pose proof (void_drain_not_Ok fuel fuel (started w) Hq) as H.
  destruct (drain fuel fuel (started w)); simpl in H; auto.
Qed.


End VoidFacts.

(** ** The error-returning variant *)

Module FailfastFacts.
Import Failfast.

Lemma ff_call_Handle_pipeline hd d : preserves same_pipeline (call_Handle hd d).
Proof. intros w. unfold call_Handle. destruct (hdlHeap w !! hd); reflexivity. Qed.

Lemma ff_call_Handle_sources hd d : preserves same_sources (call_Handle hd d).
Proof. intros w. unfold call_Handle. destruct (hdlHeap w !! hd); reflexivity. Qed.

Lemma ff_chain_pipeline es : forall r, preserves same_pipeline (chain es r).
Proof.
  induction es as [|e es IH]; intros r; simpl.
  - apply (preserves_ret _ same_pipeline_refl).
  - apply (preserves_bind _ same_pipeline_trans); [apply ff_call_Handle_pipeline|auto].
Qed.

Lemma ff_chain_sources es : forall r, preserves same_sources (chain es r).
Proof.
  induction es as [|e es IH]; intros r; simpl.
  - apply (preserves_ret _ same_sources_refl).
  - apply (preserves_bind _ same_sources_trans); [apply ff_call_Handle_sources|auto].
Qed.

Lemma ff_handleSrc_loop_pipeline fuel sl src :
  preserves same_pipeline (handleSrc_loop fuel sl src).
Proof.
  induction fuel as [|fuel IH]; simpl.
  - apply (preserves_stop _ same_pipeline_refl).
  - apply (preserves_bind _ same_pipeline_trans); [apply call_Next_pipeline|].
    intros r.
    apply (preserves_bind _ same_pipeline_trans);
      [apply (preserves_lift _ same_pipeline_refl)|intros es].
    apply (preserves_bind _ same_pipeline_trans); [apply ff_chain_pipeline|intros r'].
    destruct (r'.2); [apply (preserves_ret _ same_pipeline_refl)|exact IH].
Qed.

Lemma ff_handleSrc_loop_sources fuel sl src :
  preserves (same_sources_but [src]) (handleSrc_loop fuel sl src).
Proof.
  induction fuel as [|fuel IH]; simpl.
  - apply (preserves_stop _ (same_sources_but_refl _)).
  - apply (preserves_bind _ (same_sources_but_trans _)); [apply call_Next_sources|].
    intros r.
    apply (preserves_bind _ (same_sources_but_trans _));
      [apply (preserves_lift _ (same_sources_but_refl _))|intros es].
    apply (preserves_bind _ (same_sources_but_trans _)).
    + intros w. apply same_sources_weaken, ff_chain_sources.
    + intros r'.
      destruct (r'.2); [apply (preserves_ret _ (same_sources_but_refl _))|exact IH].
Qed.

Lemma ff_handleSrc_pipeline fuel src : preserves same_pipeline (handleSrc fuel src).
Proof.
  unfold handleSrc.
  frame_steps (@same_pipeline_refl Handlers Handler)
              (@same_pipeline_trans Handlers Handler).
  apply ff_handleSrc_loop_pipeline.
Qed.

Lemma ff_handleSrc_sources fuel src :
  preserves (same_sources_but [src]) (handleSrc fuel src).
Proof.
  unfold handleSrc.
  frame_steps (@same_sources_but_refl Handlers Handler [src])
              (@same_sources_but_trans Handlers Handler [src]).
  apply ff_handleSrc_loop_sources.
Qed.

(** What [popSrc] does, by the shape of the pending queue. *)
Lemma ff_popSrc_nil w : todoSrc (pipeline w) = None -> popSrc w = Ok None w.
Proof. intros E. unfold popSrc, bind, gets. now rewrite E. Qed.

Lemma ff_popSrc_nil_list w :
  todoSrc (pipeline w) = Some (mkSafeList None) -> popSrc w = Panic w.
Proof. intros E. unfold popSrc, bind, gets. now rewrite E. Qed.

Lemma ff_popSrc_empty w :
  todoSrc (pipeline w) = Some (mkSafeList (Some [])) -> popSrc w = Panic w.
Proof. intros E. unfold popSrc, bind, gets. now rewrite E. Qed.

Lemma ff_popSrc_cons w x xs :
  todoSrc (pipeline w) = Some (mkSafeList (Some (x :: xs))) ->
  popSrc w = Ok (Some x)
    (mkWorld (set_todoSrc (Some (mkSafeList (Some xs))) (pipeline w))
       (srcHeap w) (hdlHeap w)).
Proof. intros E. unfold popSrc, bind, gets. now rewrite E. Qed.

(** What [srcDone] does, by the shape of the done queue. *)
Lemma ff_srcDone_nil s w :
  doneSrc (pipeline w) = None ->
  srcDone s w =
    Ok tt (mkWorld (set_doneSrc (Some (mkSafeList (Some [s]))) (pipeline w))
             (srcHeap w) (hdlHeap w)).
Proof. intros E. unfold srcDone, bind, gets. rewrite E. simpl. now rewrite ?E. Qed.

Lemma ff_srcDone_nil_list s w :
  doneSrc (pipeline w) = Some (mkSafeList None) -> srcDone s w = Panic w.
Proof. intros E. unfold srcDone, bind, gets. rewrite E. simpl. now rewrite ?E. Qed.

Lemma ff_srcDone_list s w xs :
  doneSrc (pipeline w) = Some (mkSafeList (Some xs)) ->
  srcDone s w =
    Ok tt (mkWorld (set_doneSrc (Some (mkSafeList (Some (xs ++ [s])))) (pipeline w))
             (srcHeap w) (hdlHeap w)).
Proof. intros E. unfold srcDone, bind, gets. rewrite E. simpl. now rewrite E. Qed.

(** [srcDone] appends to the done queue or panics on a nil list. *)
Lemma ff_srcDone_spec s w :
  (exists q,
     srcDone s w = Ok tt (mkWorld (set_doneSrc q (pipeline w)) (srcHeap w) (hdlHeap w)) /\
     contents q = contents (doneSrc (pipeline w)) ++ [s]) \/
  (srcDone s w = Panic w /\ doneSrc (pipeline w) = Some (mkSafeList None)).
Proof.
  destruct (doneSrc (pipeline w)) as [[[xs|]]|] eqn:E.
  - left. eexists. split; [apply (ff_srcDone_list _ _ _ E)|reflexivity].
  - right. split; [apply (ff_srcDone_nil_list _ _ E)|reflexivity].
  - left. eexists. split; [apply (ff_srcDone_nil _ _ E)|reflexivity].
Qed.

(** [ErrCheck] is called through the field, which leaves the world alone. *)
Lemma ff_call_ErrCheck_spec e w :
  (exists f, ErrCheck (pipeline w) = Some f /\ call_ErrCheck e w = Ok (f e) w) \/
  (ErrCheck (pipeline w) = None /\ call_ErrCheck e w = Panic w).
Proof.
  unfold call_ErrCheck, bind, gets.
  destruct (ErrCheck (pipeline w)) as [f|]; [left; eauto|right; auto].
Qed.

(** One iteration of the drain loop. *)
Lemma ff_drain_S fuel k w :
  drain fuel (S k) w =
    match popSrc w with
    | Ok (Some s) w1 =>
        match handleSrc fuel s w1 with
        | Ok e w2 =>
            match srcDone s w2 with
            | Ok _ w3 =>
                match e with
                | None => drain fuel k w3
                | Some _ =>
                    match call_ErrCheck e w3 with
                    | Ok true w4 => drain fuel k w4
                    | Ok false w4 => Ok e w4
                    | Panic w4 => Panic w4
                    | OutOfFuel w4 => OutOfFuel w4
                    end
                end
            | Panic w3 => Panic w3
            | OutOfFuel w3 => OutOfFuel w3
            end
        | Panic w2 => Panic w2
        | OutOfFuel w2 => OutOfFuel w2
        end
    | Ok None w1 => Ok None w1
    | Panic w1 => Panic w1
    | OutOfFuel w1 => OutOfFuel w1
    end.
Proof.
  simpl. unfold bind. destruct (popSrc w) as [[s|] w1|w1|w1]; try reflexivity.
  destruct (handleSrc fuel s w1) as [e w2|w2|w2]; try reflexivity.
  destruct (srcDone s w2) as [[] w3|w3|w3]; try reflexivity.
  destruct e as [e|]; try reflexivity.
  destruct (call_ErrCheck (Some e) w3) as [[|] w4|w4|w4]; reflexivity.
Qed.

Lemma ff_in_order_here w o : final o = w -> in_order w o.
Proof.
  intros E. unfold in_order. rewrite E. exists [], []. simpl.
  rewrite app_nil_r. repeat split; auto.
Qed.

Lemma ff_in_order_flight w o x :
  contents (todoSrc (pipeline w)) = x :: contents (todoSrc (pipeline (final o))) ->
  contents (doneSrc (pipeline (final o))) = contents (doneSrc (pipeline w)) ->
  ~ is_Ok o ->
  same_sources_but [x] w (final o) ->
  same_rest w (final o) ->
  in_order w o.
Proof.
  intros Ht Hd Hok Hs Hr. exists [], [x]. simpl. rewrite app_nil_r.
  repeat split; auto; try apply Hr. intros H. contradiction.
Qed.

Lemma ff_in_order_step w w3 o x :
  contents (todoSrc (pipeline w)) = x :: contents (todoSrc (pipeline w3)) ->
  contents (doneSrc (pipeline w3)) = contents (doneSrc (pipeline w)) ++ [x] ->
  same_sources_but [x] w w3 ->
  same_rest w w3 ->
  in_order w3 o ->
  in_order w o.
Proof.
  intros Ht Hd Hs (Hh & Hst & He) (fin & mid & Ht' & Hd' & Hlen & Hok & Hs' & Hh' & Hst' & He').
  exists (x :: fin), mid. repeat split; auto; try congruence.
  - rewrite Ht, Ht'. reflexivity.
  - rewrite Hd', Hd, <- app_assoc. reflexivity.
  - intros r Hr. rewrite Hs', Hs; auto.
    + intros Hin. apply Hr. apply list_elem_of_singleton in Hin. subst. now left.
    + intros Hin. apply Hr. now right.
Qed.

(** The drain loop moves the pending sources to the done queue in their
    order, one at a time. *)
Lemma ff_drain_in_order fuel k : forall w, in_order w (drain fuel k w).
Proof.
  induction k as [|k IH]; intros w.
  - now apply ff_in_order_here.
  - rewrite ff_drain_S.
    destruct (todoSrc (pipeline w)) as [[[[|x xs]|]]|] eqn:E.
    + rewrite (ff_popSrc_empty _ E). now apply ff_in_order_here.
    + rewrite (ff_popSrc_cons _ _ _ E).
      set (w1 := mkWorld _ _ _).
      pose proof (ff_handleSrc_pipeline fuel x w1) as Hp.
      pose proof (ff_handleSrc_sources fuel x w1) as Hs.
      unfold same_pipeline in Hp.
      destruct (handleSrc fuel x w1) as [e w2|w2|w2]; simpl in Hp, Hs.
      * destruct (ff_srcDone_spec x w2) as [(q & Hd & Hq)|(Hd & Hnil)]; rewrite Hd.
        -- set (w3 := mkWorld _ _ _).
           assert (Hstep : forall o, in_order w3 o -> in_order w o).
           { intros o Ho. apply (ff_in_order_step w w3 o x); [| | | |exact Ho];
               subst w3; simpl; rewrite ?Hp; simpl; rewrite ?E; auto.
             - rewrite Hq, Hp. reflexivity.
             - repeat split. }
           assert (Hw3 : forall o, final o = w3 -> in_order w o).
           { intros o Ho. apply Hstep. now apply ff_in_order_here. }
           destruct e as [e|]; [|apply Hstep, IH].
           destruct (ff_call_ErrCheck_spec (Some e) w3) as [(f & _ & Hc)|(_ & Hc)];
             rewrite Hc; [|now apply Hw3].
           destruct (f (Some e)); [apply Hstep, IH|now apply Hw3].
        -- apply (ff_in_order_flight _ _ x); simpl; rewrite ?Hp; simpl; rewrite ?E; auto.
           repeat split; rewrite Hp; reflexivity.
      * apply (ff_in_order_flight _ _ x); simpl; rewrite ?Hp; simpl; rewrite ?E; auto.
        repeat split; rewrite Hp; reflexivity.
      * apply (ff_in_order_flight _ _ x); simpl; rewrite ?Hp; simpl; rewrite ?E; auto.
        repeat split; rewrite Hp; reflexivity.
    + rewrite (ff_popSrc_nil_list _ E). now apply ff_in_order_here.
    + rewrite (ff_popSrc_nil _ E). now apply ff_in_order_here.
Qed.

Lemma ff_Run_running fuel w :
  state (pipeline w) = StatusRunning -> Run fuel w = Ok (Some ErrAlreadyRunning) w.
Proof. intros E. unfold Run, bind, gets. rewrite E. reflexivity. Qed.

Lemma ff_Run_not_running fuel w :
  state (pipeline w) <> StatusRunning -> Run fuel w = drain fuel fuel (started w).
Proof.
  intros E. unfold Run, bind at 1, gets at 1.
  destruct (Z.eqb_spec (state (pipeline w)) StatusRunning); [contradiction|].
  unfold started, bind, modify, gets. simpl.
  destruct (ErrCheck (pipeline w)); reflexivity.
Qed.

Lemma ff_started_queues w :
  todoSrc (pipeline (started w)) = todoSrc (pipeline w) /\
  doneSrc (pipeline (started w)) = doneSrc (pipeline w) /\
  handlers (pipeline (started w)) = handlers (pipeline w) /\
  state (pipeline (started w)) = StatusRunning.
Proof. unfold started. simpl. destruct (ErrCheck (pipeline w)); simpl; auto. Qed.

(** [Run] always ends with the state [StatusRunning]. *)
Lemma ff_Run_state fuel w :
  state (pipeline (final (Run fuel w))) = StatusRunning.
Proof.
  destruct (Z.eq_dec (state (pipeline w)) StatusRunning) as [E|E].
  - now rewrite (ff_Run_running _ _ E).
  - rewrite (ff_Run_not_running _ _ E).
    destruct (ff_drain_in_order fuel fuel (started w))
      as (fin & mid & _ & _ & _ & _ & _ & _ & Hs & _).
    rewrite Hs. apply ff_started_queues.
Qed.

(** With no handler chain the drain loop moves the whole pending queue to the
    done queue without touching any object, then panics in the pop of the
    empty queue. *)
Lemma ff_drain_no_chain fuel : forall xs k w,
  handlers (pipeline w) = None ->
  todoSrc (pipeline w) = Some (mkSafeList (Some xs)) ->
  doneSrc (pipeline w) <> Some (mkSafeList None) ->
  (length xs < k)%nat ->
  exists q,
    drain fuel k w =
      Panic (mkWorld
               (set_doneSrc q (set_todoSrc (Some (mkSafeList (Some []))) (pipeline w)))
               (srcHeap w) (hdlHeap w)) /\
    contents q = contents (doneSrc (pipeline w)) ++ xs.
Proof.
  induction xs as [|x xs IH]; intros k w Hh E Hd Hk.
  - destruct k as [|k]; [simpl in Hk; lia|].
    exists (doneSrc (pipeline w)). rewrite app_nil_r. split; [|reflexivity].
    rewrite ff_drain_S, (ff_popSrc_empty _ E).
    f_equal. destruct w as [p ss hs]; simpl in *. f_equal.
    destruct p; simpl in *. unfold set_todoSrc, set_doneSrc; simpl. congruence.
  - destruct k as [|k]; [simpl in Hk; lia|].
    rewrite ff_drain_S, (ff_popSrc_cons _ _ _ E).
    set (w1 := mkWorld _ _ _).
    assert (Hh1 : handleSrc fuel x w1 = Ok None w1).
    { unfold handleSrc, bind, gets. simpl. now rewrite Hh. }
    rewrite Hh1.
    destruct (ff_srcDone_spec x w1) as [(q1 & Hd1 & Hq1)|(_ & Hnil)];
      [|simpl in Hnil; contradiction].
    rewrite Hd1. set (w3 := mkWorld _ _ _).
    destruct (IH k w3) as (q & Hdr & Hq); subst w3; simpl; auto.
    + intros Hq'. rewrite Hq' in Hq1. simpl in Hq1.
      destruct (contents (doneSrc (pipeline w))); discriminate.
    + simpl in Hk. lia.
    + exists q. split; [exact Hdr|].
      rewrite Hq. simpl. rewrite Hq1. simpl. now rewrite <- app_assoc.
Qed.


(** A chain all of whose handlers are allocated runs to its end, leaves the
    sources and the pipeline alone, and changes no handler outside it. *)
Lemma ff_chain_allocated pre : forall r w,
  (forall h, h ∈ pre -> is_Some (hdlHeap w !! h)) ->
  exists r' w',
    chain pre r w = Ok r' w' /\
    srcHeap w' = srcHeap w /\
    (forall h, h ∉ pre -> hdlHeap w' !! h = hdlHeap w !! h) /\
    (forall h, is_Some (hdlHeap w !! h) -> is_Some (hdlHeap w' !! h)).
Proof.
  induction pre as [|a pre IH]; intros r w Hall; simpl.
  - exists r, w. repeat split; auto.
  - destruct (Hall a) as [h0 Ha]; [now left|].
    unfold bind at 1, call_Handle. rewrite Ha. simpl.
    set (w1 := mkWorld _ _ _).
    assert (Hsome : forall h, is_Some (hdlHeap w !! h) -> is_Some (hdlHeap w1 !! h)).
    { intros h Hh. subst w1. simpl. destruct (decide (a = h)) as [->|Hne].
      - rewrite lookup_insert_eq. eauto.
      - now rewrite lookup_insert_ne. }
    destruct (IH (respond h0 (seen h0) r.1) w1) as (r' & w' & Hc & Hs & Hout & Hin).
    { intros h Hh. apply Hsome, Hall. now right. }
    exists r', w'. repeat split; auto.
    intros h Hh. rewrite Hout by (intros ?; apply Hh; now right).
    subst w1. simpl. apply lookup_insert_ne. intros ->. apply Hh. now left.
Qed.

(** A chain whose last handler never returns an error: [handleSrc] never
    returns, whatever the source and the other handlers answer, because the
    error of [src.Next()] and the errors of the other handlers are overwritten
    by the last handler's before [err] is tested. *)
Lemma ff_handleSrc_loop_never_returns fuel sl src pre hd :
  List sl = Some (pre ++ [hd]) ->
  hd ∉ pre ->
  forall w,
    is_Some (srcHeap w !! src) ->
    (forall h, h ∈ pre -> is_Some (hdlHeap w !! h)) ->
    (exists h, hdlHeap w !! hd = Some h /\ forall l d, (respond h l d).2 = None) ->
    is_OutOfFuel (handleSrc_loop fuel sl src w).
Proof.
  intros Hsl Hnotin. induction fuel as [|fuel IH]; intros w [s Hs] Hall (h & Hh & Hnone).
  - exact I.
  - simpl. unfold bind at 1, call_Next. rewrite Hs. simpl. rewrite Hsl. simpl.
    unfold bind at 1. unfold ret at 1. set (w1 := mkWorld _ _ _).
    unfold bind at 1. rewrite Failfast_chain_app.
    destruct (ff_chain_allocated pre (script s (calls s)) w1 Hall)
      as (r1 & w2 & Hc & Hsrc & Hout & Hin).
    rewrite (bind_Ok _ _ _ _ _ Hc). simpl. unfold bind at 1, call_Handle.
    rewrite (Hout hd Hnotin). subst w1. simpl. rewrite Hh. simpl. unfold ret.
    rewrite Hnone. apply IH; simpl.
    + rewrite Hsrc. simpl. rewrite lookup_insert_eq. eauto.
    + intros h' Hh'. rewrite lookup_insert_ne by (intros ->; contradiction).
      apply Hin, Hall, Hh'.
    + eexists. rewrite lookup_insert_eq. split; [reflexivity|]. exact Hnone.
Qed.

(** Once the pending queue is allocated the drain loop cannot end by its
    [break]: it returns only an error that [ErrCheck] rejected. *)
Lemma ff_drain_Ok_error fuel k : forall w e w',
  todoSrc (pipeline w) <> None -> drain fuel k w = Ok e w' -> e <> None.
Proof.
  induction k as [|k IH]; intros w e w' Hq H; [discriminate|].
  rewrite ff_drain_S in H.
  destruct (todoSrc (pipeline w)) as [[[[|x xs]|]]|] eqn:E.
  - rewrite (ff_popSrc_empty _ E) in H. discriminate.
  - rewrite (ff_popSrc_cons _ _ _ E) in H. set (w1 := mkWorld _ _ _) in H.
    pose proof (ff_handleSrc_pipeline fuel x w1) as Hp. unfold same_pipeline in Hp.
    destruct (handleSrc fuel x w1) as [e1 w2|w2|w2]; simpl in Hp; try discriminate.
    assert (Hq2 : forall w3, srcDone x w2 = Ok tt w3 -> todoSrc (pipeline w3) <> None).
    { intros w3 H3. destruct (ff_srcDone_spec x w2) as [(q & Hd & _)|(Hd & _)];
        rewrite Hd in H3; [|discriminate].
      injection H3 as <-. simpl. rewrite Hp. discriminate. }
    destruct (srcDone x w2) as [[] w3|w3|w3]; try discriminate.
    specialize (Hq2 w3 eq_refl).
    destruct e1 as [e1|]; [|now apply (IH w3 e w')].
    destruct (ff_call_ErrCheck_spec (Some e1) w3) as [(f & _ & Hc)|(_ & Hc)];
      rewrite Hc in H; [|discriminate].
    destruct (f (Some e1)); [now apply (IH w3 e w')|].
    injection H as <- _. discriminate.
  - rewrite (ff_popSrc_nil_list _ E) in H. discriminate.
  - contradiction.
Qed.

Lemma ff_Run_Ok_error fuel w e w' :
  todoSrc (pipeline w) <> None ->
  state (pipeline w) <> StatusRunning ->
  Run fuel w = Ok e w' -> e <> None.
Proof.
  intros Hq Hst H. rewrite (ff_Run_not_running _ _ Hst) in H.
  apply (ff_drain_Ok_error fuel fuel (started w) e w'); [|exact H].
  destruct (ff_started_queues w) as (Et & _). now rewrite Et.
Qed.

End FailfastFacts.

(** ** The claims of the specification *)

(** *** File sources *)



(** *** Re-entrant [Run] *)

(** C9: a [Run] called while the state is [StatusRunning] returns at once and
    leaves the world as it is (no source popped, no object called, no queue
    changed): with no result in the void variant, with the error
    "handlers already running", which is neither nil nor [io.EOF], in the
    error-returning variant. *)
Theorem Run_while_running (fuel : nat) (wv : Void.W) (wf : Failfast.W) :
  Void.state (pipeline wv) = Void.StatusRunning ->
  Failfast.state (pipeline wf) = Failfast.StatusRunning ->
  Void.Run fuel wv = Ok tt wv /\
  Failfast.Run fuel wf = Ok (Some Failfast.ErrAlreadyRunning) wf /\
  Failfast.ErrAlreadyRunning = Err "handlers already running" /\
  Failfast.ErrAlreadyRunning <> EOF.
Proof.
  intros Hv Hf. split; [|split; [|split]].
  - now apply VoidFacts.void_Run_running.
  - now apply FailfastFacts.ff_Run_running.
  - reflexivity.
  - discriminate.
Qed.

Lemma Run_while_running_witness :
  let wv : Void.W :=
    mkWorld (Void.set_state Void.StatusRunning
               (Scenario.void_literal [0%nat] (Some [1%nat]) None))
      {[ 0%nat := Scenario.two_items ]} {[ 1%nat := Scenario.handler_a ]} in
  let wf : Failfast.W :=
    mkWorld (Failfast.mkHandlers (Some (mkSafeList (Some [0%nat]))) None None
               Failfast.StatusRunning None)
      {[ 0%nat := Scenario.two_items ]} ∅ in
  Void.Run 7 wv = Ok tt wv /\
  Failfast.Run 7 wf = Ok (Some Failfast.ErrAlreadyRunning) wf /\
  Failfast.ErrAlreadyRunning = Err "handlers already running" /\
  Failfast.ErrAlreadyRunning <> EOF.
Proof.
  intros wv wf. apply (Run_while_running 7 wv wf); reflexivity.
Defined.

(** *** No handler chain *)



(** *** The handler chain *)





(** *** The end of the drain loop *)

Lemma Failfast_AddSrc_fresh s ss hs :
  Failfast.AddSrc s (Failfast.fresh ss hs) =
    Ok tt (mkWorld (Failfast.set_todoSrc (Some (mkSafeList (Some [s]))) Failfast.zero)
             ss hs).
Proof. reflexivity. Qed.

(** C1 fails on the code.  [popSrc] on an allocated, empty pending queue
    panics ([Front] returns the nil element, which [Remove] dereferences), so
    once the pending queue is allocated [Run] cannot end by the [break] of its
    loop: in the void variant it never returns normally, in the
    error-returning variant it returns normally only with an error.  A
    pipeline of the error-returning variant with one registered source and no
    handler: [Run] moves the source to the done queue and panics.  The same
    happens in the void variant for a pipeline whose pending queue holds one
    source. *)
Theorem Run_panics_on_emptied_queue :
  (forall w : Failfast.W,
     Failfast.todoSrc (pipeline w) = Some (mkSafeList (Some [])) ->
     Failfast.popSrc w = Panic w) /\
  (forall w : Void.W,
     Void.todoSrc (pipeline w) = Some (mkSafeList (Some [])) ->
     Void.popSrc w = Panic w) /\
  (forall fuel (w : Void.W),
     Void.todoSrc (pipeline w) <> None ->
     Void.state (pipeline w) <> Void.StatusRunning ->
     ~ is_Ok (Void.Run fuel w)) /\
  (forall fuel (w : Failfast.W) e w',
     Failfast.todoSrc (pipeline w) <> None ->
     Failfast.state (pipeline w) <> Failfast.StatusRunning ->
     Failfast.Run fuel w = Ok e w' -> e <> None) /\
  (forall fuel,
     let o := (Failfast.AddSrc 0%nat ;;; Failfast.Run (S (S fuel)))
                (Failfast.fresh {[ 0%nat := Scenario.two_items ]} ∅) in
     let o' := Void.Run (S (S fuel))
                 (mkWorld (Scenario.void_literal [0%nat] None None)
                    {[ 0%nat := Scenario.two_items ]} ∅) in
     (is_Panic o /\
      Failfast.todoSrc (pipeline (final o)) = Some (mkSafeList (Some [])) /\
      contents (Failfast.doneSrc (pipeline (final o))) = [0%nat]) /\
     (is_Panic o' /\
      Void.todoSrc (pipeline (final o')) = Some (mkSafeList (Some [])))).
Proof.
  split; [exact FailfastFacts.ff_popSrc_empty|].
  split; [exact VoidFacts.void_popSrc_empty|].
  split; [exact VoidFacts.void_Run_not_Ok|].
  split; [exact FailfastFacts.ff_Run_Ok_error|].
  intros fuel o o'. split.
  - subst o. rewrite (bind_Ok _ _ _ _ _ (Failfast_AddSrc_fresh _ _ _)).
    rewrite FailfastFacts.ff_Run_not_running by discriminate.
    match goal with |- context [Failfast.drain ?f ?k ?w] =>
      destruct (FailfastFacts.ff_drain_no_chain f [0%nat] k w) as (q & Hq & Hc);
        try reflexivity; try discriminate; [simpl; lia|]
    end.
    rewrite Hq. simpl in Hc. simpl. auto.
  - subst o'. set (w0 := mkWorld _ _ _).
    rewrite VoidFacts.void_Run_not_running by discriminate.
    rewrite (bind_Panic _ _ _ _
               (VoidFacts.void_drain_no_chain (S (S fuel)) [0%nat] (S (S fuel))
                  (Void.started w0) eq_refl eq_refl ltac:(simpl; lia))).
    simpl. auto.
Qed.

(** *** Errors of sources and handlers *)

Lemma Failfast_registered_2_1 (k : M Failfast.W err) s1 s2 h ss hs :
  (Failfast.AddSrc s1 ;;; Failfast.AddSrc s2 ;;; Failfast.AddHandler h ;;; k)
    (Failfast.fresh ss hs) =
  k (mkWorld (Failfast.mkHandlers (Some (mkSafeList (Some [s1; s2]))) None
                (Some (mkSafeList (Some [h]))) Failfast.StatusInit None)
       ss hs).
Proof. reflexivity. Qed.

Lemma Failfast_registered_1_2 (k : M Failfast.W err) s h1 h2 ss hs :
  (Failfast.AddSrc s ;;; Failfast.AddHandler h1 ;;; Failfast.AddHandler h2 ;;; k)
    (Failfast.fresh ss hs) =
  k (mkWorld (Failfast.mkHandlers (Some (mkSafeList (Some [s]))) None
                (Some (mkSafeList (Some [h1; h2]))) Failfast.StatusInit None)
       ss hs).
Proof. reflexivity. Qed.

(** A run that is still inside the [handleSrc] of its first source. *)
Lemma Failfast_first_source_never_ends fuel (w : Failfast.W) x xs sl :
  Failfast.state (pipeline w) <> Failfast.StatusRunning ->
  Failfast.todoSrc (pipeline w) = Some (mkSafeList (Some (x :: xs))) ->
  Failfast.handlers (pipeline w) = Some sl ->
  (forall w1, srcHeap w1 = srcHeap w -> hdlHeap w1 = hdlHeap w ->
              is_OutOfFuel (Failfast.handleSrc_loop fuel sl x w1)) ->
  is_OutOfFuel (Failfast.Run fuel w).
Proof.
  intros Hst Hq Hh Hloop.
  rewrite FailfastFacts.ff_Run_not_running by exact Hst.
  destruct fuel as [|k]; [exact I|].
  destruct (FailfastFacts.ff_started_queues w) as (Et & _ & Eh & _).
  rewrite FailfastFacts.ff_drain_S.
  rewrite (FailfastFacts.ff_popSrc_cons (Failfast.started w) x xs) by congruence.
  set (w1 := mkWorld _ _ _).
  assert (H : is_OutOfFuel (Failfast.handleSrc (S k) x w1)).
  { assert (E1 : Failfast.handlers (pipeline w1) = Some sl)
      by (subst w1; unfold Failfast.set_todoSrc;
          cbn [pipeline Failfast.handlers]; rewrite Eh; exact Hh).
    unfold Failfast.handleSrc, bind, gets. rewrite E1.
    apply Hloop; reflexivity. }
  destruct (Failfast.handleSrc (S k) x w1); simpl in H; try contradiction.
  exact I.
Qed.

(** C3 fails on the code.  [handleSrc] tests [err] only after every handler
    of the chain has assigned it, so the error of [src.Next()] (and the error
    of every handler but the last) is overwritten.  Two sources, the first of
    which fails every read with a hard error, and one handler that returns
    its input and a nil error: the hard error is never returned and the first
    source is read for ever; whatever the loop budget, [Run] has not
    returned.  One source and two handlers, the first of which fails every
    item with a hard error: [Run] does not return either. *)
Theorem source_error_is_overwritten (fuel : nat) :
  is_OutOfFuel
    ((Failfast.AddSrc 0%nat ;;; Failfast.AddSrc 1%nat ;;;
      Failfast.AddHandler 0%nat ;;; Failfast.Run fuel)
       (Failfast.fresh {[ 0%nat := Scenario.broken; 1%nat := Scenario.two_items ]}
          {[ 0%nat := Scenario.pass ]})) /\
  is_OutOfFuel
    ((Failfast.AddSrc 0%nat ;;; Failfast.AddHandler 0%nat ;;;
      Failfast.AddHandler 1%nat ;;; Failfast.Run fuel)
       (Failfast.fresh {[ 0%nat := Scenario.two_items ]}
          {[ 0%nat := Scenario.failing; 1%nat := Scenario.pass ]})).
Proof.
  split.
  - rewrite Failfast_registered_2_1.
    eapply Failfast_first_source_never_ends; try reflexivity; [discriminate|].
    intros w1 Hs Hh.
    apply (FailfastFacts.ff_handleSrc_loop_never_returns fuel
             (mkSafeList (Some [0%nat])) 0%nat [] 0%nat eq_refl).
    + apply not_elem_of_nil.
    + rewrite Hs. eexists. reflexivity.
    + intros h Hin. destruct (not_elem_of_nil h Hin).
    + rewrite Hh. exists Scenario.pass. split; reflexivity.
  - rewrite Failfast_registered_1_2.
    eapply Failfast_first_source_never_ends; try reflexivity; [discriminate|].
    intros w1 Hs Hh.
    apply (FailfastFacts.ff_handleSrc_loop_never_returns fuel
             (mkSafeList (Some [0%nat; 1%nat])) 0%nat [0%nat] 1%nat eq_refl).
    + intros Hin. apply list_elem_of_singleton in Hin. discriminate.
    + rewrite Hs. eexists. reflexivity.
    + intros h Hin. apply list_elem_of_singleton in Hin. subst h.
      rewrite Hh. eexists. reflexivity.
    + rewrite Hh. exists Scenario.pass. split; reflexivity.
Qed.

(** *** Running again *)

(** C4 fails on the code.  [Run] sets the state to [StatusRunning] and no
    code path sets it to anything else, so in whatever way a [Run] ends, every
    later [Run] is refused: it is a no-op in the void variant and returns
    "handlers already running" in the error-returning variant.  In
    particular, after a first [Run] on the empty pipeline has returned nil, a
    source registered since then stays pending in the second [Run]. *)
Theorem Run_cannot_be_repeated :
  (forall fuel fuel' (w : Void.W),
     Void.Run fuel' (final (Void.Run fuel w)) = Ok tt (final (Void.Run fuel w))) /\
  (forall fuel fuel' (w : Failfast.W),
     Failfast.Run fuel' (final (Failfast.Run fuel w)) =
       Ok (Some Failfast.ErrAlreadyRunning) (final (Failfast.Run fuel w))) /\
  (forall fuel fuel',
     exists w1 w2,
       Failfast.Run (S fuel) (Failfast.fresh {[ 0%nat := Scenario.two_items ]} ∅) =
         Ok None w1 /\
       Failfast.AddSrc 0%nat w1 = Ok tt w2 /\
       contents (Failfast.todoSrc (pipeline w2)) = [0%nat] /\
       Failfast.Run fuel' w2 = Ok (Some Failfast.ErrAlreadyRunning) w2).
Proof.
  split; [|split].
  - intros. apply VoidFacts.void_Run_running, VoidFacts.void_Run_state.
  - intros. apply FailfastFacts.ff_Run_running, FailfastFacts.ff_Run_state.
  - intros. eexists. eexists. split; [reflexivity|].
    split; [reflexivity|]. split; reflexivity.
Qed.

(** *** The done queue *)


(** *** The result handler *)

(** C8 fails on the code.  [AddHandler] of handlers.go allocates the chain
    with [new(safeList)], whose embedded list is nil, and panics in
    [PushBack]: no handler can be registered, and the pipeline with the
    handlers "a" and "b" and a result handler panics before [Run] is
    reached, the result handler never invoked.  Were the chain in place (a
    struct literal), the result step is still out of reach as soon as one
    source was pending, because the drain loop ends in the panic of the
    empty pop; it is reached, and builds the mapping, only when the pending
    queue was never allocated. *)
Theorem result_handler_out_of_reach :
  (forall hd ss hs,
     Void.AddHandler hd (Void.fresh ss hs) =
       Panic (mkWorld (Void.set_handlers (Some Void.new_safeList) Void.zero) ss hs)) /\
  (forall fuel,
     let hs : gmap ref Void.Handler :=
       {[ 0%nat := Scenario.handler_a; 1%nat := Scenario.handler_b;
          2%nat := Scenario.sink ]} in
     let o := (Void.AddHandler 0%nat ;;; Void.AddHandler 1%nat ;;;
               Void.SetResultHandler 2%nat ;;; Void.Run fuel) (Void.fresh ∅ hs) in
     is_Panic o /\ hdlHeap (final o) = hs) /\
  (let hs : gmap ref Void.Handler :=
     {[ 0%nat := Scenario.handler_a; 1%nat := Scenario.handler_b;
        2%nat := Scenario.sink ]} in
   let o := Void.Run 5
              (mkWorld (Scenario.void_literal [3%nat] (Some [0%nat; 1%nat]) (Some 2%nat))
                 {[ 3%nat := Scenario.two_items ]} hs) in
   is_Panic o /\
   Void.seen <$> (hdlHeap (final o) !! 2%nat) = Some []) /\
  (let hs : gmap ref Void.Handler :=
     {[ 0%nat := Scenario.handler_a; 1%nat := Scenario.handler_b;
        2%nat := Scenario.sink ]} in
   let o := Void.Run 5
              (mkWorld (Void.mkHandlers None None
                          (Some (mkSafeList (Some [0%nat; 1%nat]))) (Some 2%nat)
                          Void.StatusInit)
                 ∅ hs) in
   is_Ok o /\
   Void.seen <$> (hdlHeap (final o) !! 2%nat) =
     Some [VMap (<["b" := VStr "resultB"]> (<["a" := VStr "resultA"]> ∅))]).
Proof.
  split; [|split; [|split]].
  - reflexivity.
  - intros fuel hs o. subst o. split; reflexivity.
  - vm_compute. split; [exact I|reflexivity].
  - vm_compute. split; [exact I|reflexivity].
Qed.

(** *** The order of the sources *)


Lemma Failfast_AddSrc_append s (w : Failfast.W) :
  Failfast.todoSrc (pipeline w) <> Some (mkSafeList None) ->
  exists q,
    Failfast.AddSrc s w =
      Ok tt (mkWorld (Failfast.set_todoSrc q (pipeline w)) (srcHeap w) (hdlHeap w)) /\
    contents q = contents (Failfast.todoSrc (pipeline w)) ++ [s] /\
    q <> Some (mkSafeList None).
Proof.
  intros Hq. unfold Failfast.AddSrc, bind, gets.
  destruct (Failfast.todoSrc (pipeline w)) as [[[xs|]]|] eqn:E; simpl.
  - rewrite E. simpl. eexists. split; [reflexivity|]. split; [reflexivity|discriminate].
  - contradiction.
  - eexists. split; [reflexivity|]. split; [reflexivity|discriminate].
Qed.




(** [Run] moves the pending sources to the done queue in their order, one at
    a time, and does not touch a source before it is popped. *)
Lemma Failfast_Run_in_order fuel (w : Failfast.W) :
  exists fin mid,
    contents (Failfast.todoSrc (pipeline w)) =
      fin ++ mid ++ contents (Failfast.todoSrc (pipeline (final (Failfast.Run fuel w)))) /\
    contents (Failfast.doneSrc (pipeline (final (Failfast.Run fuel w)))) =
      contents (Failfast.doneSrc (pipeline w)) ++ fin /\
    (length mid <= 1)%nat /\
    (is_Ok (Failfast.Run fuel w) -> mid = []) /\
    same_sources_but (fin ++ mid) w (final (Failfast.Run fuel w)).
Proof.
  destruct (Z.eq_dec (Failfast.state (pipeline w)) Failfast.StatusRunning) as [E|E].
  - rewrite (FailfastFacts.ff_Run_running _ _ E). exists [], []. simpl.
    rewrite app_nil_r. repeat split; auto.
  - rewrite (FailfastFacts.ff_Run_not_running _ _ E).
    destruct (FailfastFacts.ff_drain_in_order fuel fuel (Failfast.started w))
      as (fin & mid & Ht & Hd & Hlen & Hok & Hs & _).
    destruct (FailfastFacts.ff_started_queues w) as (Et & Ed & _).
    rewrite Et in Ht. rewrite Ed in Hd.
    exists fin, mid. repeat split; auto.
Qed.




(** * Further properties of the code *)

(** ** File sources *)

Module FilesFacts.
Import Files FilesExt.

Lemma app_cons c s t : String c s +:+ t = String c (s +:+ t).
Proof. reflexivity. Qed.

Lemma app_empty_l t : EmptyString +:+ t = t.
Proof. reflexivity. Qed.

Lemma app_empty_r s : s +:+ EmptyString = s.
Proof. induction s as [|c s IH]; [reflexivity|]. now rewrite app_cons, IH. Qed.

Lemma app_assoc_s s t u : (s +:+ t) +:+ u = s +:+ (t +:+ u).
Proof. induction s as [|c s IH]; [reflexivity|]. now rewrite !app_cons, IH. Qed.





Lemma Next_closed fs :
  split_delim newline (unread fs) = None ->
  file_open fs = false ->
  FileSource_Next fs = ((VStr EmptyString, Some ErrClosed), fs).
Proof.
  intros E Ho. unfold FileSource_Next, ReadString. rewrite E, Ho.
  unfold Close. now rewrite Ho.
Qed.



(** X2: once [Next] has returned an error (the end of the file included) the
    file is closed, and every later [Next] returns the empty string with the
    error of a read on a closed file, which is not [io.EOF], and changes
    nothing. *)
Theorem Next_after_error_fails (fs fs' : FileSource) (d : value) (e : error) :
  FileSource_Next fs = ((d, Some e), fs') ->
  file_open fs' = false /\
  FileSource_Next fs' = ((VStr EmptyString, Some ErrClosed), fs') /\
  ErrClosed <> EOF.
Proof.
  intros H. unfold FileSource_Next, ReadString in H.
  destruct (split_delim newline (unread fs)) as [[line rest]|] eqn:E;
    [discriminate|].
  destruct (file_open fs) eqn:Ho; simpl in H.
  - injection H as <- <- <-.
    split; [reflexivity|split; [now apply Next_closed|discriminate]].
  - unfold Close in H. rewrite Ho in H. injection H as <- <- <-.
    split; [exact Ho|split; [now apply Next_closed|discriminate]].
Qed.

Lemma Next_after_error_fails_witness :
  file_open (mkFileSource false EmptyString) = false /\
  FileSource_Next (mkFileSource false EmptyString) =
    ((VStr EmptyString, Some ErrClosed), mkFileSource false EmptyString) /\
  ErrClosed <> EOF.
Proof.
  apply (Next_after_error_fails (mkFileSource true "z") _ (VStr "z") EOF).
  reflexivity.
Defined.

(** X3: [MultiFileSrc.Next] on a source whose index is not negative never
    panics; it keeps the number of files, leaves the index or advances it by
    one, and never moves it past the number of files. *)
Theorem MultiFileSrc_Next_stays_in_range (mfs : MultiFileSrc) :
  0 <= index mfs ->
  exists r mfs',
    MultiFileSrc_Next mfs = Returns (r, mfs') /\
    length (src mfs') = length (src mfs) /\
    (index mfs' = index mfs \/ index mfs' = index mfs + 1) /\
    (index mfs <= Z.of_nat (length (src mfs)) ->
     index mfs' <= Z.of_nat (length (src mfs'))).
Proof.
  intros Hi. unfold MultiFileSrc_Next.
  rewrite Z.geb_leb. destruct (Z.leb_spec (Z.of_nat (length (src mfs))) (index mfs)) as [Hge|Hlt].
  - eexists _, _. split; [reflexivity|]. repeat split; auto; lia.
  - destruct (Z.ltb_spec (index mfs) 0) as [Hneg|_]; [lia|].
    destruct (lookup_lt_is_Some_2 (src mfs) (Z.to_nat (index mfs))) as [fs Hfs]; [lia|].
    rewrite Hfs. destruct (FileSource_Next fs) as [[d [e0|]] fs'].
    + eexists _, _. split; [reflexivity|]. simpl. rewrite length_insert.
      repeat split; auto; lia.
    + eexists _, _. split; [reflexivity|]. simpl. rewrite length_insert.
      repeat split; auto; lia.
Qed.

Lemma MultiFileSrc_Next_stays_in_range_witness :
  exists r mfs',
    MultiFileSrc_Next two_files = Returns (r, mfs') /\
    length (src mfs') = length (src two_files) /\
    (index mfs' = index two_files \/ index mfs' = index two_files + 1) /\
    (index two_files <= Z.of_nat (length (src two_files)) ->
     index mfs' <= Z.of_nat (length (src mfs'))).
Proof. apply (MultiFileSrc_Next_stays_in_range two_files). simpl. lia. Defined.

(** X4: [MultiFileSrc.Next] returns [io.EOF] only when no file is left (the
    index has reached the number of files), and an item without error only
    while a file is left; once no file is left, every call returns nil with
    [io.EOF] and changes nothing. *)
Theorem MultiFileSrc_EOF_only_at_the_end (mfs mfs' : MultiFileSrc) (r : value * err) :
  MultiFileSrc_Next mfs = Returns (r, mfs') ->
  (r.2 = Some EOF -> Z.of_nat (length (src mfs')) <= index mfs') /\
  (r.2 = None -> index mfs' < Z.of_nat (length (src mfs'))) /\
  (Z.of_nat (length (src mfs)) <= index mfs -> r = (VNil, Some EOF) /\ mfs' = mfs) /\
  (Z.of_nat (length (src mfs')) <= index mfs' ->
   MultiFileSrc_Next mfs' = Returns ((VNil, Some EOF), mfs')).
Proof.
  intros H.
  assert (Hend : forall m, Z.of_nat (length (src m)) <= index m ->
                           MultiFileSrc_Next m = Returns ((VNil, Some EOF), m)).
  { intros m Hm. unfold MultiFileSrc_Next. rewrite Z.geb_leb.
    destruct (Z.leb_spec (Z.of_nat (length (src m))) (index m)); [reflexivity|lia]. }
  split; [|split; [|split]]; auto.
  - unfold MultiFileSrc_Next in H. rewrite Z.geb_leb in H.
    destruct (Z.leb_spec (Z.of_nat (length (src mfs))) (index mfs)) as [Hge|Hlt].
    + injection H as <- <-. auto.
    + destruct (Z.ltb_spec (index mfs) 0); [discriminate|].
      destruct (src mfs !! Z.to_nat (index mfs)) as [fs|]; [|discriminate].
      destruct (FileSource_Next fs) as [[d [e0|]] fs'].
      * injection H as <- <-. simpl. rewrite length_insert. intros He.
        destruct (Z.ltb_spec (index mfs + 1) (Z.of_nat (length (src mfs)))) as [Hl|Hl];
          [|exact Hl].
        destruct e0; simpl in He; discriminate.
      * injection H as <- <-. simpl. discriminate.
  - unfold MultiFileSrc_Next in H. rewrite Z.geb_leb in H.
    destruct (Z.leb_spec (Z.of_nat (length (src mfs))) (index mfs)) as [Hge|Hlt].
    + injection H as <- <-. discriminate.
    + destruct (Z.ltb_spec (index mfs) 0); [discriminate|].
      destruct (src mfs !! Z.to_nat (index mfs)) as [fs|]; [|discriminate].
      destruct (FileSource_Next fs) as [[d [e0|]] fs'].
      * injection H as <- <-. simpl. rewrite length_insert. intros He.
        destruct (Z.ltb_spec (index mfs + 1) (Z.of_nat (length (src mfs)))) as [Hl|Hl];
          [exact Hl|].
        rewrite andb_false_r in He. discriminate.
      * injection H as <- <-. simpl. rewrite length_insert. intros _. exact Hlt.
  - intros Hge. rewrite (Hend mfs Hge) in H. injection H as <- <-. auto.
Qed.

Lemma MultiFileSrc_EOF_only_at_the_end_witness :
  let mfs' := mkMultiFileSrc [mkFileSource false EmptyString] 1 in
  ((VStr "z", Some EOF).2 = Some EOF -> Z.of_nat (length (src mfs')) <= index mfs') /\
  ((VStr "z", Some EOF).2 = None -> index mfs' < Z.of_nat (length (src mfs'))) /\
  (Z.of_nat (length (src (mkMultiFileSrc [mkFileSource true "z"] 0))) <=
     index (mkMultiFileSrc [mkFileSource true "z"] 0) ->
   (VStr "z", Some EOF) = (VNil, Some EOF) /\
   mfs' = mkMultiFileSrc [mkFileSource true "z"] 0) /\
  (Z.of_nat (length (src mfs')) <= index mfs' ->
   MultiFileSrc_Next mfs' = Returns ((VNil, Some EOF), mfs')).
Proof.
  intros mfs'.
  apply (MultiFileSrc_EOF_only_at_the_end
           (mkMultiFileSrc [mkFileSource true "z"] 0) mfs' (VStr "z", Some EOF)).
  reflexivity.
Defined.











(** Closing. *)
Lemma Close_closed fs : file_open (Close fs) = false.
Proof. unfold Close. destruct (file_open fs) eqn:E; simpl; auto. Qed.

Lemma close_loop_spec os_close files : forall i b,
  close_loop os_close i files b =
    (b +:+ close_messages os_close i files, map Close files).
Proof.
  induction files as [|fs rest IH]; intros i b; simpl.
  - now rewrite app_empty_r.
  - unfold FileSource_Close. destruct (file_open fs) eqn:Ho.
    + rewrite IH. destruct (os_close i) as [e|].
      * now rewrite app_assoc_s.
      * reflexivity.
    + rewrite IH. rewrite app_empty_l. unfold Close. now rewrite Ho.
Qed.

Lemma close_messages_closed os_close files : forall i,
  Forall (fun f => file_open f = false) files ->
  close_messages os_close i files = EmptyString.
Proof.
  induction files as [|fs rest IH]; intros i H; simpl; [reflexivity|].
  inversion H as [|? ? Hf Hrest]; subst. rewrite Hf, IH; auto.
Qed.

Lemma map_Close_closed files :
  Forall (fun f => file_open f = false) files -> map Close files = files.
Proof.
  induction 1 as [|fs rest Hf _ IH]; simpl; [reflexivity|].
  rewrite IH. unfold Close. now rewrite Hf.
Qed.

(** X6: [MultiFileSrc.Close] closes every file, whatever closes fail on the
    way; the error it returns carries the messages of all the failed closes
    put end to end, in the order of the files, and it is nil exactly when
    these messages are empty.  A second [Close] returns nil and changes
    nothing. *)
Theorem MultiFileSrc_Close_closes_all (os_close os_close' : nat -> err)
    (mfs : MultiFileSrc) :
  let msgs := close_messages os_close 0 (src mfs) in
  let mfs' := (MultiFileSrc_Close os_close mfs).2 in
  Forall (fun f => file_open f = false) (src mfs') /\
  map unread (src mfs') = map unread (src mfs) /\
  index mfs' = index mfs /\
  (MultiFileSrc_Close os_close mfs).1 =
    (if decide (msgs = EmptyString) then None else Some (Err msgs)) /\
  MultiFileSrc_Close os_close' mfs' = (None, mfs').
Proof.
  intros msgs mfs'. subst mfs'. unfold MultiFileSrc_Close.
  rewrite close_loop_spec, app_empty_l. fold msgs. simpl.
  assert (Hc : Forall (fun f => file_open f = false) (map Close (src mfs))).
  { apply Forall_map, Forall_forall. intros f _. apply Close_closed. }
  repeat split; auto.
  - rewrite <- list_fmap_compose. apply list_fmap_ext. intros _ f _. simpl.
    unfold Close. destruct (file_open f); reflexivity.
  - destruct msgs; reflexivity.
  - rewrite close_loop_spec, app_empty_l, (close_messages_closed _ _ _ Hc),
      (map_Close_closed _ Hc). reflexivity.
Qed.

End FilesFacts.

(** ** The error-returning variant *)

Module FailfastMore.
Import Failfast Api.

Lemma AddHandler_append hd (w : W) :
  handlers (pipeline w) <> Some (mkSafeList None) ->
  exists q,
    AddHandler hd w =
      Ok tt (mkWorld (set_handlers q (pipeline w)) (srcHeap w) (hdlHeap w)) /\
    contents q = contents (handlers (pipeline w)) ++ [hd] /\
    q <> Some (mkSafeList None).
Proof.
  intros Hq. unfold AddHandler, bind, gets.
  destruct (handlers (pipeline w)) as [[[xs|]]|] eqn:E; simpl.
  - rewrite E. simpl. eexists. split; [reflexivity|]. split; [reflexivity|discriminate].
  - contradiction.
  - eexists. split; [reflexivity|]. split; [reflexivity|discriminate].
Qed.

(** Registration calls on a pipeline whose queues are nil or allocated by
    [newSafeList]. *)
Lemma registrations_append cs : forall (w : W),
  todoSrc (pipeline w) <> Some (mkSafeList None) ->
  handlers (pipeline w) <> Some (mkSafeList None) ->
  exists qs qh,
    registrations cs w =
      Ok tt (mkWorld (set_handlers qh (set_todoSrc qs (pipeline w)))
               (srcHeap w) (hdlHeap w)) /\
    contents qs = contents (todoSrc (pipeline w)) ++ registered_sources cs /\
    contents qh = contents (handlers (pipeline w)) ++ registered_handlers cs.
Proof.
  induction cs as [|c cs IH]; intros w Hs Hh.
  - exists (todoSrc (pipeline w)), (handlers (pipeline w)). simpl.
    rewrite !app_nil_r. split; [|auto].
    unfold ret. f_equal. destruct w as [[] ss hs]. reflexivity.
  - simpl registrations. destruct c as [r|r|r].
    + destruct (Failfast_AddSrc_append r w Hs) as (q1 & H1 & Hc1 & Hq1).
      simpl register. rewrite (bind_Ok _ _ _ _ _ H1).
      destruct (IH (mkWorld (set_todoSrc q1 (pipeline w)) (srcHeap w) (hdlHeap w)))
        as (qs & qh & H & Hcs & Hch); [exact Hq1|exact Hh|].
      exists qs, qh. split; [exact H|]. simpl in Hcs, Hch. simpl.
      rewrite Hcs, Hch, Hc1, <- app_assoc. auto.
    + destruct (AddHandler_append r w Hh) as (q1 & H1 & Hc1 & Hq1).
      simpl register. rewrite (bind_Ok _ _ _ _ _ H1).
      destruct (IH (mkWorld (set_handlers q1 (pipeline w)) (srcHeap w) (hdlHeap w)))
        as (qs & qh & H & Hcs & Hch); [exact Hs|exact Hq1|].
      exists qs, qh. split; [exact H|]. simpl in Hcs, Hch. simpl.
      rewrite Hcs, Hch, Hc1, <- app_assoc. auto.
    + destruct (AddHandler_append r w Hh) as (q1 & H1 & Hc1 & Hq1).
      simpl register. unfold AddHandlerFunc. rewrite (bind_Ok _ _ _ _ _ H1).
      destruct (IH (mkWorld (set_handlers q1 (pipeline w)) (srcHeap w) (hdlHeap w)))
        as (qs & qh & H & Hcs & Hch); [exact Hs|exact Hq1|].
      exists qs, qh. split; [exact H|]. simpl in Hcs, Hch. simpl.
      rewrite Hcs, Hch, Hc1, <- app_assoc. auto.
Qed.

(** X7: on a new pipeline of the error-returning variant, [AddSrc],
    [AddHandler] and [AddHandlerFunc] calls in any number and any
    interleaving never panic; afterwards the pending queue holds the
    registered sources and the chain the registered handlers, each in the
    order of its calls; the done queue, the state, [ErrCheck] and the objects
    are untouched. *)
Theorem registration_keeps_call_order (cs : list registration)
    (ss : gmap ref Source) (hs : gmap ref Handler) :
  exists w',
    registrations cs (fresh ss hs) = Ok tt w' /\
    contents (todoSrc (pipeline w')) = registered_sources cs /\
    contents (handlers (pipeline w')) = registered_handlers cs /\
    doneSrc (pipeline w') = None /\
    state (pipeline w') = StatusInit /\
    ErrCheck (pipeline w') = None /\
    srcHeap w' = ss /\
    hdlHeap w' = hs.
Proof.
  destruct (registrations_append cs (fresh ss hs)) as (qs & qh & H & Hs & Hh);
    try discriminate.
  eexists. split; [exact H|]. simpl. repeat split; auto.
Qed.

(** The last handler of the chain decides what one round of [handleSrc]
    returns. *)
Lemma handleSrc_loop_last_handler_fails fuel sl src pre hd (w : W) s h e0 :
  List sl = Some (pre ++ [hd]) ->
  hd ∉ pre ->
  (forall p, p ∈ pre -> is_Some (hdlHeap w !! p)) ->
  hdlHeap w !! hd = Some h ->
  (forall d, (respond h (seen h) d).2 = Some e0) ->
  srcHeap w !! src = Some s ->
  exists w',
    handleSrc_loop (S fuel) sl src w = Ok (Some e0) w' /\
    pipeline w' = pipeline w /\
    srcHeap w' = <[src := mkSource (script s) (S (calls s))]> (srcHeap w).
Proof.
  intros Hsl Hnotin Hall Hh Hresp Hs.
  simpl. unfold bind at 1, call_Next. rewrite Hs. simpl. rewrite Hsl. simpl.
  unfold bind at 1. unfold ret at 1. set (w1 := mkWorld _ _ _).
  unfold bind at 1. rewrite Failfast_chain_app.
  destruct (FailfastFacts.ff_chain_allocated pre (script s (calls s)) w1 Hall)
    as (r1 & w2 & Hc & Hsrc & Hout & Hin).
  pose proof (FailfastFacts.ff_chain_pipeline pre (script s (calls s)) w1) as Hp.
  rewrite Hc in Hp. unfold same_pipeline in Hp. simpl in Hp.
  rewrite (bind_Ok _ _ _ _ _ Hc). simpl. unfold bind at 1, call_Handle.
  rewrite (Hout hd Hnotin). subst w1. simpl. rewrite Hh. simpl. unfold ret.
  rewrite Hresp. eexists. split; [reflexivity|]. simpl. auto.
Qed.

(** X8: with the default [ErrCheck], when the last handler of the chain
    answers the first item of the first pending source with a hard error,
    [Run] returns that error at once: one item of that source has been read,
    the source is moved to the done queue, and the other sources stay pending
    and unread. *)
Theorem Run_aborts_on_hard_handler_error (k : nat) (w : W) (x : ref) (xs pre : list ref)
    (hd : ref) (s : Source) (h : Handler) (msg : string) :
  state (pipeline w) <> StatusRunning ->
  ErrCheck (pipeline w) = None ->
  todoSrc (pipeline w) = Some (mkSafeList (Some (x :: xs))) ->
  doneSrc (pipeline w) <> Some (mkSafeList None) ->
  handlers (pipeline w) = Some (mkSafeList (Some (pre ++ [hd]))) ->
  hd ∉ pre ->
  (forall p, p ∈ pre -> is_Some (hdlHeap w !! p)) ->
  hdlHeap w !! hd = Some h ->
  (forall d, (respond h (seen h) d).2 = Some (Err msg)) ->
  srcHeap w !! x = Some s ->
  exists w',
    Run (S k) w = Ok (Some (Err msg)) w' /\
    contents (todoSrc (pipeline w')) = xs /\
    contents (doneSrc (pipeline w')) = contents (doneSrc (pipeline w)) ++ [x] /\
    srcHeap w' = <[x := mkSource (script s) (S (calls s))]> (srcHeap w).
Proof.
  intros Hst Hec Hq Hd Hh Hnotin Hall Hhd Hresp Hs.
  rewrite (FailfastFacts.ff_Run_not_running _ _ Hst).
  destruct (FailfastFacts.ff_started_queues w) as (Et & Ed & Eh & _).
  rewrite FailfastFacts.ff_drain_S.
  rewrite (FailfastFacts.ff_popSrc_cons (started w) x xs) by congruence.
  set (w1 := mkWorld _ _ _).
  assert (E1 : handlers (pipeline w1) = Some (mkSafeList (Some (pre ++ [hd]))))
    by (subst w1; unfold set_todoSrc; cbn [pipeline handlers]; congruence).
  destruct (handleSrc_loop_last_handler_fails k (mkSafeList (Some (pre ++ [hd])))
              x pre hd w1 s h (Err msg) eq_refl Hnotin Hall Hhd Hresp Hs)
    as (w2 & H2 & Hp2 & Hs2).
  unfold handleSrc at 1, bind at 1, gets at 1. rewrite E1, H2.
  destruct (FailfastFacts.ff_srcDone_spec x w2) as [(q & Hdone & Hcq)|(_ & Hnil)].
  - rewrite Hdone. set (w3 := mkWorld _ _ _).
    assert (Hc : call_ErrCheck (Some (Err msg)) w3 = Ok false w3).
    { unfold call_ErrCheck, bind, gets. subst w3. simpl. rewrite Hp2. subst w1.
      simpl. unfold started. simpl. rewrite Hec. reflexivity. }
    rewrite Hc. eexists. split; [reflexivity|]. subst w3. simpl.
    split; [|split].
    + rewrite Hp2. subst w1. reflexivity.
    + rewrite Hcq, Hp2. subst w1. unfold set_todoSrc. cbn [pipeline doneSrc].
      now rewrite Ed.
    + rewrite Hs2. subst w1. reflexivity.
  - rewrite Hp2 in Hnil. subst w1. unfold set_todoSrc in Hnil.
    cbn [pipeline doneSrc] in Hnil. rewrite Ed in Hnil. contradiction.
Qed.

(** The drain loop keeps [ErrCheck], and an error it returns is one that
    [ErrCheck] refused. *)
Lemma drain_returns_refused fuel k : forall (w : W) e w',
  drain fuel k w = Ok e w' ->
  e = None \/ exists f, ErrCheck (pipeline w) = Some f /\ f e = false.
Proof.
  induction k as [|k IH]; intros w e w' H; [discriminate|].
  rewrite FailfastFacts.ff_drain_S in H.
  destruct (todoSrc (pipeline w)) as [[[[|x xs]|]]|] eqn:E.
  - rewrite (FailfastFacts.ff_popSrc_empty _ E) in H. discriminate.
  - rewrite (FailfastFacts.ff_popSrc_cons _ _ _ E) in H. set (w1 := mkWorld _ _ _) in H.
    pose proof (FailfastFacts.ff_handleSrc_pipeline fuel x w1) as Hp.
    unfold same_pipeline in Hp.
    destruct (handleSrc fuel x w1) as [e1 w2|w2|w2]; simpl in Hp; try discriminate.
    destruct (FailfastFacts.ff_srcDone_spec x w2) as [(q & Hd & _)|(Hd & _)];
      rewrite Hd in H; [|discriminate].
    set (w3 := mkWorld _ _ _) in H.
    assert (He : ErrCheck (pipeline w3) = ErrCheck (pipeline w))
      by (subst w3 w1; simpl; rewrite Hp; reflexivity).
    destruct e1 as [e1|].
    + destruct (FailfastFacts.ff_call_ErrCheck_spec (Some e1) w3) as [(f & Hf & Hc)|(_ & Hc)];
        rewrite Hc in H; [|discriminate].
      destruct (f (Some e1)) eqn:Hfe.
      * rewrite <- He. now apply (IH w3 e w').
      * injection H as <- _. right. exists f. rewrite <- He. auto.
    + rewrite <- He. now apply (IH w3 e w').
  - rewrite (FailfastFacts.ff_popSrc_nil_list _ E) in H. discriminate.
  - rewrite (FailfastFacts.ff_popSrc_nil _ E) in H. injection H as <- _. now left.
Qed.

(** X9: a [Run] that was not refused returns nil or an error that the
    [ErrCheck] in force (the caller's, [defaultErrFunc] when the field is
    nil) answered with false.  So with the default check [Run] never returns
    [io.EOF], and with a check that always answers true it never returns an
    error. *)
Theorem Run_returns_only_refused_errors (fuel : nat) (w w' : W) (e : err) :
  state (pipeline w) <> StatusRunning ->
  Run fuel w = Ok e w' ->
  (e = None \/
   match ErrCheck (pipeline w) with
   | Some f => f e = false
   | None => defaultErrFunc e = false
   end) /\
  (ErrCheck (pipeline w) = None -> e <> Some EOF) /\
  (forall f, ErrCheck (pipeline w) = Some f -> (forall e0, f e0 = true) -> e = None).
Proof.
  intros Hst H. rewrite (FailfastFacts.ff_Run_not_running _ _ Hst) in H.
  apply drain_returns_refused in H.
  assert (Hmain : e = None \/
                  match ErrCheck (pipeline w) with
                  | Some f => f e = false
                  | None => defaultErrFunc e = false
                  end).
  { destruct H as [->|(f & Hf & Hfe)]; [now left|right].
    unfold started in Hf. simpl in Hf.
    destruct (ErrCheck (pipeline w)) as [g|] eqn:Eg; simpl in Hf.
    - rewrite Eg in Hf. injection Hf as ->. exact Hfe.
    - injection Hf as <-. exact Hfe. }
  split; [exact Hmain|]. split.
  - intros Hn ->. rewrite Hn in Hmain. destruct Hmain; discriminate.
  - intros f Hf Hall. rewrite Hf in Hmain. destruct Hmain as [->|Hr]; [reflexivity|].
    rewrite Hall in Hr. discriminate.
Qed.


(** A chain leaves alone the sources and every handler that is not in it. *)
Lemma chain_leaves_others es : forall r (w : W) r' w' hd,
  chain es r w = Ok r' w' ->
  hd ∉ es ->
  hdlHeap w' !! hd = hdlHeap w !! hd /\ srcHeap w' = srcHeap w.
Proof.
  induction es as [|a es IH]; intros r w r' w' hd H Hnotin; simpl in H.
  - injection H as <- <-. auto.
  - unfold bind at 1, call_Handle in H.
    destruct (hdlHeap w !! a) as [h|] eqn:Ha; [|discriminate]. simpl in H.
    destruct (IH _ _ _ _ hd H) as [Hh Hs].
    + intros Hin. apply Hnotin. now right.
    + simpl in Hh, Hs. split; [|exact Hs].
      rewrite Hh. apply lookup_insert_ne. intros ->. apply Hnotin. now left.
Qed.

Lemma chain_cons_known hd rest r (w : W) h :
  hdlHeap w !! hd = Some h ->
  chain (hd :: rest) r w =
    chain rest (respond h (seen h) r.1)
      (mkWorld (pipeline w) (srcHeap w)
         (<[hd := mkHandler (respond h) (seen h ++ [r.1])]> (hdlHeap w))).
Proof. intros H. simpl. unfold bind, call_Handle. rewrite H. reflexivity. Qed.

(** X14: [handleSrc] of the error-returning variant hands to the chain the
    item of every [Next] call it makes, the calls that returned an error
    included: when it returns, the first handler of the chain has been given
    exactly the items of the [Next] calls made, in their order, and at least
    one call was made. *)
Theorem handleSrc_handles_every_read (fuel : nat) : forall (sl : safeList ref)
    (src hd : ref) (rest : list ref) (w w' : W) (e : err) (s : Source) (h : Handler),
  List sl = Some (hd :: rest) ->
  hd ∉ rest ->
  srcHeap w !! src = Some s ->
  hdlHeap w !! hd = Some h ->
  handleSrc_loop fuel sl src w = Ok e w' ->
  exists n h',
    (0 < n)%nat /\
    srcHeap w' !! src = Some (mkSource (script s) (calls s + n)) /\
    hdlHeap w' !! hd = Some h' /\
    seen h' = seen h ++ next_items s n.
Proof.
  induction fuel as [|fuel IH]; intros sl src hd rest w w' e s h Hsl Hnotin Hs Hh H;
    [discriminate|].
  simpl in H. unfold bind at 1, call_Next in H. rewrite Hs in H. simpl in H.
  rewrite Hsl in H. simpl in H. unfold bind at 1 in H. unfold ret at 1 in H.
  set (w0 := mkWorld _ _ _) in H. unfold bind at 1 in H.
  rewrite (chain_cons_known hd rest _ w0 h Hh) in H.
  set (w1 := mkWorld _ _ _) in H.
  destruct (chain rest _ w1) as [r' w2|w2|w2] eqn:Hc; try discriminate.
  destruct (chain_leaves_others _ _ _ _ _ hd Hc Hnotin) as [Hh2 Hs2].
  subst w1 w0. simpl in Hh2, Hs2. rewrite lookup_insert_eq in Hh2.
  assert (Hone : next_items s 1 = [(script s (calls s)).1]).
  { unfold next_items. simpl. now rewrite Nat.add_0_r. }
  destruct (r'.2) as [e0|].
  - unfold ret in H. injection H as <- <-. exists 1%nat. eexists.
    split; [lia|]. split; [|split; [exact Hh2|]].
    + rewrite Hs2, lookup_insert_eq. do 2 f_equal. lia.
    + simpl. now rewrite Hone.
  - destruct (IH sl src hd rest w2 w' e (mkSource (script s) (S (calls s)))
                (mkHandler (respond h) (seen h ++ [(script s (calls s)).1]))
                Hsl Hnotin) as (n & h' & Hn & Hs' & Hh' & Hseen).
    + rewrite Hs2. apply lookup_insert_eq.
    + exact Hh2.
    + exact H.
    + exists (S n), h'. split; [lia|]. split; [|split; [exact Hh'|]].
      * rewrite Hs'. cbn [script calls]. do 2 f_equal. lia.
      * rewrite Hseen. cbn [seen]. rewrite <- app_assoc. f_equal.
        unfold next_items. cbn [script calls seq map].
        rewrite Nat.add_0_r. cbn [app]. f_equal.
        rewrite <- seq_shift, map_map. apply map_ext. intros i.
        now rewrite Nat.add_succ_comm.
Qed.

(** X15: in the error-returning variant a source is recorded as done at most
    once and never moves back: when the done and the pending queue together
    hold no source twice, then in whatever way [Run] ends the done queue
    holds no source twice, the pending queue is an end of what it was, and no
    source is in both. *)
Theorem Run_records_done_once (fuel : nat) (w : W) :
  NoDup (contents (doneSrc (pipeline w)) ++ contents (todoSrc (pipeline w))) ->
  NoDup (contents (doneSrc (pipeline (final (Run fuel w)))) ++
         contents (todoSrc (pipeline (final (Run fuel w))))) /\
  exists popped,
    contents (todoSrc (pipeline w)) =
      popped ++ contents (todoSrc (pipeline (final (Run fuel w)))).
Proof.
  intros Hnd.
  destruct (Failfast_Run_in_order fuel w) as (fin & mid & Ht & Hd & _).
  split; [|exists (fin ++ mid); now rewrite <- app_assoc].
  rewrite Hd. rewrite Ht in Hnd. rewrite <- app_assoc.
  rewrite !NoDup_app in *.
  destruct Hnd as (Hdn & Hdis & Hfn & Hdis2 & Hmn & Hdis3 & Hpn).
  repeat split; auto.
  - intros x Hx [Hin|Hin]%elem_of_app.
    + apply (Hdis x Hx). apply elem_of_app. now left.
    + apply (Hdis x Hx). apply elem_of_app. right. apply elem_of_app. now right.
  - intros x Hx Hin. apply (Hdis2 x Hx). apply elem_of_app. now right.
Qed.

End FailfastMore.

(** ** The void variant (handlers.go) *)

Module VoidMore.
Import Void Api.

(** A chain all of whose handlers are allocated runs to its end, leaves the
    sources and the pipeline alone, and changes no handler outside it. *)
Lemma chain_allocated es : forall d (w : W),
  (forall h, h ∈ es -> is_Some (hdlHeap w !! h)) ->
  exists d' w',
    chain es d w = Ok d' w' /\
    srcHeap w' = srcHeap w /\
    pipeline w' = pipeline w /\
    (forall h, h ∉ es -> hdlHeap w' !! h = hdlHeap w !! h) /\
    (forall h, is_Some (hdlHeap w !! h) -> is_Some (hdlHeap w' !! h)).
Proof.
  induction es as [|a es IH]; intros d w Hall; simpl.
  - exists d, w. repeat split; auto.
  - destruct (Hall a) as [h0 Ha]; [now left|].
    unfold bind at 1, call_Handle. rewrite Ha. simpl.
    set (w1 := mkWorld _ _ _).
    assert (Hsome : forall h, is_Some (hdlHeap w !! h) -> is_Some (hdlHeap w1 !! h)).
    { intros h Hh. subst w1. simpl. destruct (decide (a = h)) as [->|Hne].
      - rewrite lookup_insert_eq. eauto.
      - now rewrite lookup_insert_ne. }
    destruct (IH (respond h0 (seen h0) d) w1) as (d' & w' & Hc & Hs & Hp & Hout & Hin).
    { intros h Hh. apply Hsome, Hall. now right. }
    exists d', w'. repeat split; auto.
    intros h Hh. rewrite Hout by (intros ?; apply Hh; now right).
    subst w1. simpl. apply lookup_insert_ne. intros ->. apply Hh. now left.
Qed.

(** The first handler of the chain records the item it is given. *)
Lemma chain_first_sees hd rest d (w : W) h :
  hd ∉ rest ->
  hdlHeap w !! hd = Some h ->
  (forall x, x ∈ rest -> is_Some (hdlHeap w !! x)) ->
  exists d' w',
    chain (hd :: rest) d w = Ok d' w' /\
    srcHeap w' = srcHeap w /\
    pipeline w' = pipeline w /\
    hdlHeap w' !! hd = Some (mkHandler (ID h) (respond h) (report h) (seen h ++ [d])) /\
    (forall x, x ∈ rest -> is_Some (hdlHeap w' !! x)).
Proof.
  intros Hnotin Hh Hall. simpl. unfold bind at 1, call_Handle. rewrite Hh. simpl.
  set (w1 := mkWorld _ _ _).
  destruct (chain_allocated rest (respond h (seen h) d) w1)
    as (d' & w' & Hc & Hs & Hp & Hout & Hin).
  { intros x Hx. subst w1. simpl.
    rewrite lookup_insert_ne by (intros ->; contradiction). now apply Hall. }
  exists d', w'. repeat split; auto.
  - rewrite (Hout hd Hnotin). subst w1. simpl. apply lookup_insert_eq.
  - intros x Hx. apply Hin. subst w1. simpl.
    rewrite lookup_insert_ne by (intros ->; contradiction). now apply Hall.
Qed.

(** X11: [handleSrc] of the void variant hands to the chain exactly the items
    that come before the first error of the source, in their order; the item
    returned together with that error (the last, unterminated line of a file,
    for one) is read and never handled. *)
Theorem handleSrc_drops_item_with_error (k : nat) : forall (fuel : nat)
    (sl : safeList ref) (src hd : ref) (rest : list ref) (w : W) (s : Source)
    (h : Handler),
  List sl = Some (hd :: rest) ->
  hd ∉ rest ->
  (forall x, x ∈ rest -> is_Some (hdlHeap w !! x)) ->
  hdlHeap w !! hd = Some h ->
  srcHeap w !! src = Some s ->
  first_error_at s k ->
  (k < fuel)%nat ->
  exists w' h',
    handleSrc_loop fuel sl src w = Ok tt w' /\
    srcHeap w' = <[src := mkSource (script s) (calls s + k + 1)]> (srcHeap w) /\
    hdlHeap w' !! hd = Some h' /\
    seen h' = seen h ++ next_items s k.
Proof.
  induction k as [|k IH]; intros fuel sl src hd rest w s h Hsl Hnotin Hall Hh Hs
                                    [Hnone Herr] Hfuel.
  - destruct fuel as [|fuel]; [lia|].
    simpl. unfold bind at 1, call_Next. rewrite Hs. simpl.
    rewrite Nat.add_0_r in Herr.
    destruct (script s (calls s)) as [d [e|]] eqn:Er; [|contradiction].
    eexists _, h. split; [reflexivity|]. simpl.
    replace (calls s + 0 + 1)%nat with (S (calls s)) by lia.
    repeat split; auto. unfold next_items. simpl. now rewrite app_nil_r.
  - destruct fuel as [|fuel]; [lia|].
    simpl. unfold bind at 1, call_Next. rewrite Hs. simpl.
    pose proof (Hnone 0%nat ltac:(lia)) as H0. rewrite Nat.add_0_r in H0.
    destruct (script s (calls s)) as [d [e|]] eqn:Er; [discriminate|].
    rewrite Hsl. simpl. unfold bind at 1. unfold ret at 1.
    set (w1 := mkWorld _ _ _). unfold bind at 1.
    destruct (chain_first_sees hd rest d w1 h Hnotin Hh Hall)
      as (d' & w2 & Hc & Hs2 & Hp2 & Hh2 & Hall2).
    rewrite Hc.
    destruct (IH fuel sl src hd rest w2 (mkSource (script s) (S (calls s)))
                (mkHandler (ID h) (respond h) (report h) (seen h ++ [d])))
      as (w' & h' & Hr & Hs' & Hh' & Hseen); auto.
    + rewrite Hs2. subst w1. simpl. apply lookup_insert_eq.
    + split; cbn [script calls].
      * intros i Hi. rewrite Nat.add_succ_comm. apply Hnone. lia.
      * rewrite Nat.add_succ_comm. exact Herr.
    + lia.
    + exists w', h'. split; [exact Hr|]. split; [|split; [exact Hh'|]].
      * rewrite Hs', Hs2. subst w1. cbn [srcHeap script calls].
        rewrite insert_insert_eq. do 2 f_equal. lia.
      * rewrite Hseen. cbn [seen]. rewrite <- app_assoc. f_equal.
        unfold next_items. cbn [script calls seq map].
        rewrite Nat.add_0_r, Er. cbn [fst app]. f_equal.
        rewrite <- seq_shift, map_map. apply map_ext. intros i.
        now rewrite Nat.add_succ_comm.
Qed.

(** On a queue without list the registration functions panic, and leave the
    queue without list. *)
Lemma AddSrc_without_list r (w : W) :
  without_list (todoSrc (pipeline w)) ->
  AddSrc r w =
    Panic (mkWorld (set_todoSrc (Some new_safeList) (pipeline w)) (srcHeap w) (hdlHeap w)).
Proof.
  intros [E|E]; unfold AddSrc, bind, gets; rewrite E; simpl; [reflexivity|].
  rewrite E. simpl. f_equal. destruct w as [[] ss hs]. simpl in *. now subst.
Qed.

Lemma AddHandler_without_list r (w : W) :
  without_list (handlers (pipeline w)) ->
  AddHandler r w =
    Panic (mkWorld (set_handlers (Some new_safeList) (pipeline w)) (srcHeap w) (hdlHeap w)).
Proof.
  intros [E|E]; unfold AddHandler, bind, gets; rewrite E; simpl; [reflexivity|].
  rewrite E. simpl. f_equal. destruct w as [[] ss hs]. simpl in *. now subst.
Qed.

Lemma result_step_without_list (w : W) :
  without_list (handlers (pipeline w)) -> final (result_step w) = w.
Proof.
  intros [E|E]; unfold result_step, bind, gets; rewrite E;
    destruct (resultHandler (pipeline w)); reflexivity.
Qed.

Lemma drain_without_list fuel k (w : W) :
  without_list (todoSrc (pipeline w)) ->
  final (drain fuel k w) = w /\
  (is_Ok (drain fuel k w) -> drain fuel k w = Ok tt w).
Proof.
  intros Hq. destruct k as [|k]; [split; [reflexivity|intros []]|].
  rewrite VoidFacts.void_drain_S. destruct Hq as [E|E].
  - rewrite (VoidFacts.void_popSrc_nil _ E). auto.
  - rewrite (VoidFacts.void_popSrc_nil_list _ E). split; [reflexivity|intros []].
Qed.

Lemma Run_inert fuel (w : W) :
  inert w ->
  final (Run fuel w) = w \/ final (Run fuel w) = started w.
Proof.
  intros (Ht & Hh & Hd).
  destruct (Z.eq_dec (state (pipeline w)) StatusRunning) as [E|E].
  - left. now rewrite (VoidFacts.void_Run_running _ _ E).
  - right. rewrite (VoidFacts.void_Run_not_running _ _ E). unfold bind.
    destruct (drain_without_list fuel fuel (started w) Ht) as [Hf Hok].
    destruct (drain fuel fuel (started w)) as [[] w1|w1|w1]; simpl in Hf; subst; auto.
    now apply result_step_without_list.
Qed.

Lemma perform_inert c (w : W) :
  inert w ->
  inert (final (perform c w)) /\
  srcHeap (final (perform c w)) = srcHeap w /\
  hdlHeap (final (perform c w)) = hdlHeap w.
Proof.
  intros Hi. pose proof Hi as (Ht & Hh & Hd). destruct c as [r|r|r|fuel]; simpl perform.
  - rewrite (AddSrc_without_list r w Ht). simpl. repeat split; auto.
    right. reflexivity.
  - rewrite (AddHandler_without_list r w Hh). simpl. repeat split; auto.
    right. reflexivity.
  - unfold SetResultHandler, modify. simpl. repeat split; auto.
  - destruct (Run_inert fuel w Hi) as [->| ->]; [auto|].
    unfold started. simpl. repeat split; auto.
Qed.

(** X12: in handlers.go no exported call ever registers anything.  Whatever
    sequence of [AddSrc], [AddHandler], [SetResultHandler] and [Run] calls is
    made on a new pipeline (the caller recovering from the panics), no queue
    ever holds a source or a handler and no source or handler object is ever
    called: [AddSrc] and [AddHandler] panic in [PushBack] on the nil list of
    [new(safeList)]. *)
Theorem exported_calls_register_nothing (cs : list call)
    (ss : gmap ref Source) (hs : gmap ref Handler) :
  let w' := perform_all cs (fresh ss hs) in
  contents (todoSrc (pipeline w')) = [] /\
  contents (handlers (pipeline w')) = [] /\
  contents (doneSrc (pipeline w')) = [] /\
  srcHeap w' = ss /\
  hdlHeap w' = hs.
Proof.
  assert (H : forall cs (w : W), inert w ->
                inert (perform_all cs w) /\
                srcHeap (perform_all cs w) = srcHeap w /\
                hdlHeap (perform_all cs w) = hdlHeap w).
  { clear. induction cs as [|c cs IH]; intros w Hi; simpl; [auto|].
    destruct (perform_inert c w Hi) as (Hi' & Hs & Hh).
    destruct (IH _ Hi') as (Hi'' & Hs' & Hh').
    split; [exact Hi''|split; congruence]. }
  destruct (H cs (fresh ss hs)) as ((Ht & Hh & Hd) & Hs & Hhs).
  { repeat split; left; reflexivity. }
  intros w'. subst w'. repeat split; auto.
  - destruct Ht as [-> | ->]; reflexivity.
  - destruct Hh as [-> | ->]; reflexivity.
  - now rewrite Hd.
Qed.

(** The result loop over allocated handlers: it changes nothing, the keys of
    the mapping it adds are the IDs of the handlers, and a key holds the
    result of the last handler of the chain with that ID. *)
Lemma collect_spec es : forall m0 (w : W),
  (forall e, e ∈ es -> is_Some (hdlHeap w !! e)) ->
  exists m,
    collect es m0 w = Ok m w /\
    (forall k, is_Some (m !! k) <->
               is_Some (m0 !! k) \/
               exists e h, e ∈ es /\ hdlHeap w !! e = Some h /\ ID h = k) /\
    (forall k, (forall e h, e ∈ es -> hdlHeap w !! e = Some h -> ID h <> k) ->
               m !! k = m0 !! k) /\
    (forall pre e post h,
       es = pre ++ e :: post ->
       hdlHeap w !! e = Some h ->
       (forall e' h', e' ∈ post -> hdlHeap w !! e' = Some h' -> ID h' <> ID h) ->
       m !! ID h = Some (Handler_Result h)).
Proof.
  induction es as [|a es IH]; intros m0 w Hall.
  - exists m0. split; [reflexivity|]. split; [|split].
    + intros k. split; [auto|]. intros [H|(e & h & He & _)]; [exact H|].
      destruct (not_elem_of_nil e He).
    + auto.
    + intros pre e post h H. destruct pre; discriminate.
  - destruct (Hall a) as [ha Ha]; [now left|].
    simpl. unfold bind at 1, call_ID_Result. rewrite Ha. simpl.
    destruct (IH (<[ID ha := Handler_Result ha]> m0) w) as (m & Hc & Hdom & Hkeep & Hlast).
    { intros e He. apply Hall. now right. }
    exists m. split; [exact Hc|]. split; [|split].
    + intros k. rewrite Hdom. split.
      * intros [H|(e & h & He & Hh & Hk)].
        -- destruct (decide (ID ha = k)) as [<-|Hne].
           ++ right. exists a, ha. repeat split; auto. now left.
           ++ left. now rewrite lookup_insert_ne in H.
        -- right. exists e, h. repeat split; auto. now right.
      * intros [H|(e & h & He & Hh & Hk)].
        -- left. destruct (decide (ID ha = k)) as [<-|Hne].
           ++ rewrite lookup_insert_eq. eauto.
           ++ now rewrite lookup_insert_ne.
        -- apply elem_of_cons in He. destruct He as [->|He].
           ++ left. rewrite Ha in Hh. injection Hh as <-. subst k.
              rewrite lookup_insert_eq. eauto.
           ++ right. exists e, h. auto.
    + intros k Hk. rewrite Hkeep.
      * apply lookup_insert_ne. apply (Hk a ha); [now left|exact Ha].
      * intros e h He. apply Hk. now right.
    + intros pre e post h Hes Hh Hpost. destruct pre as [|p pre]; simpl in Hes.
      * injection Hes as <- <-. rewrite Ha in Hh. injection Hh as <-.
        rewrite Hkeep; [apply lookup_insert_eq|]. exact Hpost.
      * injection Hes as <- ->. now apply (Hlast pre e post h).
Qed.

(** X13: the result step of [Run], when it is reached (the pending queue was
    never allocated, so the drain loop ends by its [break]) with a chain of
    allocated handlers and a result handler: [Run] returns; the result
    handler is called exactly once, with a mapping whose keys are exactly
    the IDs of the handlers of the chain and which holds, for an ID, the
    [Result()] of the last handler of the chain with that ID (an ID used
    twice is overwritten); its output is dropped and nothing else changes. *)
Theorem Run_hands_results_to_result_handler (fuel : nat) (w : W) (es : list ref)
    (r : ref) (hr : Handler) :
  state (pipeline w) <> StatusRunning ->
  todoSrc (pipeline w) = None ->
  handlers (pipeline w) = Some (mkSafeList (Some es)) ->
  resultHandler (pipeline w) = Some r ->
  hdlHeap w !! r = Some hr ->
  (forall e, e ∈ es -> is_Some (hdlHeap w !! e)) ->
  (0 < fuel)%nat ->
  exists m,
    Run fuel w =
      Ok tt (mkWorld (set_state StatusRunning (pipeline w)) (srcHeap w)
               (<[r := mkHandler (ID hr) (respond hr) (report hr)
                         (seen hr ++ [VMap m])]> (hdlHeap w))) /\
    (forall k, is_Some (m !! k) <->
               exists e h, e ∈ es /\ hdlHeap w !! e = Some h /\ ID h = k) /\
    (forall pre e post h,
       es = pre ++ e :: post ->
       hdlHeap w !! e = Some h ->
       (forall e' h', e' ∈ post -> hdlHeap w !! e' = Some h' -> ID h' <> ID h) ->
       m !! ID h = Some (Handler_Result h)).
Proof.
  intros Hst Hq Hh Hr Hhr Hall Hfuel.
  rewrite (VoidFacts.void_Run_not_running _ _ Hst).
  destruct fuel as [|k]; [lia|].
  assert (Hd : drain (S k) (S k) (started w) = Ok tt (started w)).
  { rewrite VoidFacts.void_drain_S, VoidFacts.void_popSrc_nil; auto. }
  rewrite (bind_Ok _ _ _ _ _ Hd).
  destruct (collect_spec es ∅ (started w) Hall) as (m & Hc & Hdom & _ & Hlast).
  exists m. split; [|split].
  - assert (Er : resultHandler (pipeline (started w)) = Some r) by exact Hr.
    assert (Eh : handlers (pipeline (started w)) = Some (mkSafeList (Some es)))
      by exact Hh.
    unfold result_step, bind at 1, gets at 1. rewrite Er.
    unfold bind at 1, gets at 1. rewrite Eh.
    unfold bind at 1. cbn [List GoList.elements lift]. unfold ret at 1.
    unfold bind at 1. rewrite Hc.
    unfold bind at 1, call_Handle. cbn [hdlHeap started]. rewrite Hhr. reflexivity.
  - intros k0. rewrite Hdom. split.
    + intros [H|H]; [|exact H]. rewrite lookup_empty in H. destruct H; discriminate.
    + auto.
  - exact Hlast.
Qed.

End VoidMore.

(** ** Instances *)

Lemma elem_of_one (x y : ref) : x ∈ [y] -> x = y.
Proof. intros H. now apply list_elem_of_singleton in H. Qed.

Lemma Run_aborts_on_hard_handler_error_witness :
  exists w',
    Failfast.Run 3 Samples.failfast_world = Ok (Some (Err "handler failed")) w' /\
    contents (Failfast.todoSrc (pipeline w')) = [1%nat] /\
    contents (Failfast.doneSrc (pipeline w')) =
      contents (Failfast.doneSrc (pipeline Samples.failfast_world)) ++ [0%nat] /\
    srcHeap w' =
      <[0%nat := mkSource (script Scenario.two_items) (S (calls Scenario.two_items))]>
        (srcHeap Samples.failfast_world).
Proof.
  apply (FailfastMore.Run_aborts_on_hard_handler_error 2 Samples.failfast_world
           0%nat [1%nat] [2%nat] 3%nat Scenario.two_items Scenario.failing
           "handler failed");
    try reflexivity; try discriminate.
  - intros H. apply elem_of_one in H. discriminate.
  - intros p H. apply elem_of_one in H. subst p. eexists. reflexivity.
Defined.

Lemma Run_returns_only_refused_errors_witness :
  (Some (Err "handler failed") = None \/
   match Failfast.ErrCheck (pipeline Samples.failfast_world) with
   | Some f => f (Some (Err "handler failed")) = false
   | None => Failfast.defaultErrFunc (Some (Err "handler failed")) = false
   end) /\
  (Failfast.ErrCheck (pipeline Samples.failfast_world) = None ->
   Some (Err "handler failed") <> Some EOF) /\
  (forall f, Failfast.ErrCheck (pipeline Samples.failfast_world) = Some f ->
             (forall e0, f e0 = true) -> Some (Err "handler failed") = None).
Proof.
  apply (FailfastMore.Run_returns_only_refused_errors 3 Samples.failfast_world
           (final (Failfast.Run 3 Samples.failfast_world))
           (Some (Err "handler failed"))).
  - discriminate.
  - vm_compute. reflexivity.
Defined.


Lemma handleSrc_drops_item_with_error_witness :
  exists w' h',
    Void.handleSrc_loop 5 (mkSafeList (Some [1%nat; 2%nat])) 0%nat
      (Samples.void_world (Some [])) = Ok tt w' /\
    srcHeap w' =
      <[0%nat := mkSource (script Samples.partial_last)
                   (calls Samples.partial_last + 1 + 1)]>
        (srcHeap (Samples.void_world (Some []))) /\
    hdlHeap w' !! 1%nat = Some h' /\
    Void.seen h' = Void.seen Scenario.handler_a ++ Api.next_items Samples.partial_last 1.
Proof.
  apply (VoidMore.handleSrc_drops_item_with_error 1 5
           (mkSafeList (Some [1%nat; 2%nat])) 0%nat 1%nat [2%nat]
           (Samples.void_world (Some [])) Samples.partial_last Scenario.handler_a);
    try reflexivity.
  - intros H. apply elem_of_one in H. discriminate.
  - intros x H. apply elem_of_one in H. subst x. eexists. reflexivity.
  - split.
    + intros i Hi. destruct i as [|i]; [reflexivity|lia].
    + simpl. discriminate.
  - lia.
Defined.

Lemma Run_hands_results_to_result_handler_witness :
  let w := Samples.void_world None in
  exists m,
    Void.Run 4 w =
      Ok tt (mkWorld (Void.set_state Void.StatusRunning (pipeline w)) (srcHeap w)
               (<[3%nat := Void.mkHandler (Void.ID Scenario.sink)
                             (Void.respond Scenario.sink) (Void.report Scenario.sink)
                             (Void.seen Scenario.sink ++ [VMap m])]> (hdlHeap w))) /\
    (forall k, is_Some (m !! k) <->
               exists e h, e ∈ [1%nat; 2%nat] /\ hdlHeap w !! e = Some h /\ Void.ID h = k) /\
    (forall pre e post h,
       [1%nat; 2%nat] = pre ++ e :: post ->
       hdlHeap w !! e = Some h ->
       (forall e' h', e' ∈ post -> hdlHeap w !! e' = Some h' -> Void.ID h' <> Void.ID h) ->
       m !! Void.ID h = Some (Void.Handler_Result h)).
Proof.
  intros w.
  apply (VoidMore.Run_hands_results_to_result_handler 4 w [1%nat; 2%nat] 3%nat
           Scenario.sink); try reflexivity; try discriminate.
  - intros e H. apply elem_of_cons in H. destruct H as [->|H].
    + eexists. reflexivity.
    + apply elem_of_one in H. subst e. eexists. reflexivity.
  - lia.
Defined.

Lemma handleSrc_handles_every_read_witness :
  exists n h',
    (0 < n)%nat /\
    srcHeap (final (Failfast.handleSrc_loop 3 (mkSafeList (Some [2%nat; 3%nat]))
                      0%nat Samples.failfast_world)) !! 0%nat =
      Some (mkSource (script Scenario.two_items) (calls Scenario.two_items + n)) /\
    hdlHeap (final (Failfast.handleSrc_loop 3 (mkSafeList (Some [2%nat; 3%nat]))
                      0%nat Samples.failfast_world)) !! 2%nat = Some h' /\
    Failfast.seen h' = Failfast.seen Scenario.pass ++ Api.next_items Scenario.two_items n.
Proof.
  apply (FailfastMore.handleSrc_handles_every_read 3
           (mkSafeList (Some [2%nat; 3%nat])) 0%nat 2%nat [3%nat]
           Samples.failfast_world _ (Some (Err "handler failed"))
           Scenario.two_items Scenario.pass); try reflexivity.
  intros H. apply elem_of_one in H. discriminate.
Defined.

Lemma Run_records_done_once_witness :
  NoDup (contents (Failfast.doneSrc (pipeline (final (Failfast.Run 3 Samples.failfast_world)))) ++
         contents (Failfast.todoSrc (pipeline (final (Failfast.Run 3 Samples.failfast_world))))) /\
  exists popped,
    contents (Failfast.todoSrc (pipeline Samples.failfast_world)) =
      popped ++ contents (Failfast.todoSrc (pipeline (final (Failfast.Run 3 Samples.failfast_world)))).
Proof.
  apply (FailfastMore.Run_records_done_once 3 Samples.failfast_world).
  simpl. apply (bool_decide_unpack _). vm_compute. exact I.
Defined.
